(** * LIME (line modelling engine): a verification development over [lime.h]

    The header [src/lime.h] carries the whole data model of LIME (the
    [molData], [populations], [grid] and [cell] structures and the numeric
    constants) and three inline functions with bodies: [sourceFunc_cont],
    [sourceFunc_line] and [FastExp].  These are embedded here from the source.

    The solver ([stateq], [getmatrix], [lteOnePoint]), the iteration
    driver ([levelPops], [statistics]), the photon estimator ([photon]) and
    the mesh builder and walker ([delaunay], [followRayThroughDelCells],
    [getNewEntryFaceI]) are only declared in the header.  Where a property
    is about one of them, the missing function is modelled from the prose
    specification, and its definition says so.

    The file has two parts: first every definition (data model, embedded
    functions, modelled functions, reference notions, concrete inputs),
    then the lemmas and theorems.

    Conventions.
    - A C [int] is a [Z]; an array is a [list] read with [rd], which fails
      outside the array (the C code would read out of bounds there).
    - A C [double] is [double] below: NaN, an infinity or a finite value,
      which is a real number.  The fields of the structures and the
      entries of their arrays hold finite doubles and are reals.
    - No double operation is exact.  In the two accumulating functions
      every product, difference and sum goes through [dmul], [dsub] and
      [dadd], which round the exact result with [fl] (the nearest double,
      or an infinity on overflow) and follow IEEE 754 on infinities and
      NaN.  In [FastExp], whose operands are bounded, every operation
      goes through a rounding operator [rnd] on the reals.  The theorems
      hold for any rounding that obeys the standard model:
      [roundsToDouble] for [fl], [roundsWithin] for [rnd].  Each operation
      is rounded on its own, as the C expressions are written.
    - A C [float] is its 32-bit IEEE 754 pattern, seen as the signed [int]
      that the union [floPo] of [FastExp] exposes. *)

From Stdlib Require Import ZArith Reals List Bool Lia Lra Psatz.
Import ListNotations.

Local Open Scope Z_scope.
Local Open Scope R_scope.

(* ================================================================== *)
(** * Array reads and the failure monad                                *)
(* ================================================================== *)

(** [a[i]] for a C array held as a list: defined only inside the array. *)
Definition rd {A : Type} (a : list A) (i : Z) : option A :=
  if (i <? 0)%Z then None else nth_error a (Z.to_nat i).

Definition bind {A B : Type} (x : option A) (k : A -> option B) : option B :=
  match x with
  | Some a => k a
  | None => None
  end.

Notation "x <- e ;; k" := (bind e (fun x => k))
  (at level 61, e at next level, right associativity).

(* ================================================================== *)
(** * Constants of [lime.h]                                            *)
(* ================================================================== *)

Definition DIM : nat := 3.
Definition HPIP : R := 8.918502221e-27.
Definition HCKB : R := 1.43877735.
Definition NITERATIONS : Z := 16.
Definition max_phot : Z := 10000.
Definition ininphot : Z := 9.
Definition minpop : R := 1e-6.
Definition TOL : R := 1e-6.
Definition MAXITER : Z := 50.
Definition goal : R := 50.
Definition fixset : R := 1e-6.
Definition FAST_EXP_MAX_TAYLOR : nat := 3.
Definition FAST_EXP_NUM_BITS : Z := 8.

(* ================================================================== *)
(** * Data model                                                       *)
(* ================================================================== *)

(** [struct cpData]. *)
Record cpData : Type := {
  down : list R;
  temp : list R;
  collPartId : Z;
  ntemp : Z;
  ntrans : Z;
  lcl : list Z;
  lcu : list Z;
  densityIndex : Z
}.

(** [molData]: the attributes shared by all grid points. *)
Record molData : Type := {
  nlev : Z;
  nline : Z;
  npart : Z;
  lal : list Z;
  lau : list Z;
  aeinst : list R;
  freq : list R;
  beinstu : list R;
  beinstl : list R;
  eterm : list R;
  gstat : list R;
  cmb : list R;
  local_cmb : list R;
  amass : R;
  part : list cpData
}.

(** [struct rates]. *)
Record rates : Type := {
  t_binlow : Z;
  interp_coeff : R
}.

(** [struct populations]. *)
Record populations : Type := {
  pops : list R;
  knu : list R;
  dust : list R;
  dopb : R;
  binv : R;
  nmol : R;
  partner : list rates
}.

(* ================================================================== *)
(** * IEEE 754 single precision, as bit patterns                       *)
(* ================================================================== *)

Module F32.

(** A [float] is the pattern read through [floPo.m], a signed 32-bit
    [int]: negative exactly when the sign bit is set. *)

Definition exponentMask : Z := 0x7f800000.
Definition ieee754NumMantBits : Z := 23.

Definition signBit (m : Z) : bool := (m <? 0)%Z.

Definition biasedExp (m : Z) : Z :=
  Z.shiftr (Z.land m exponentMask) ieee754NumMantBits.

Definition mantBits (m : Z) : Z := Z.land m 0x007fffff.

Definition isNaN (m : Z) : bool :=
  (biasedExp m =? 255)%Z && negb (mantBits m =? 0)%Z.

Definition isInf (m : Z) : bool :=
  (biasedExp m =? 255)%Z && (mantBits m =? 0)%Z.

Definition isZero (m : Z) : bool := (Z.land m 0x7fffffff =? 0)%Z.

Definition isFinite (m : Z) : bool := negb (biasedExp m =? 255)%Z.

(** The real value of a finite pattern: subnormal when the exponent
    field is zero, normal otherwise. *)
Definition magnitude (m : Z) : R :=
  if (biasedExp m =? 0)%Z
  then IZR (mantBits m) * powerRZ 2 (-149)
  else IZR (2 ^ 23 + mantBits m) * powerRZ 2 (biasedExp m - 150).

Definition F2R (m : Z) : R :=
  if signBit m then - magnitude m else magnitude m.

(** [negarg < 0.0]: false on NaN and on both zeros. *)
Definition lt0 (m : Z) : bool :=
  signBit m && negb (isNaN m) && negb (isZero m).

(** [negarg == 0.0]: true on both zeros. *)
Definition eq0 (m : Z) : bool := isZero m.

(** A positive finite float: what reaches the three approximating
    branches of [FastExp] besides NaN and +infinity. *)
Definition isPositive (m : Z) : bool :=
  negb (signBit m) && negb (isZero m) && isFinite m.

(** Unary minus of a [float] flips the sign bit. *)
Definition fneg (m : Z) : Z := Z.lxor m (- 2 ^ 31).

End F32.

(** A C [double] value: finite values are reals. *)
Inductive double : Type :=
| DNaN : double
| DInf : bool -> double
| DFin : R -> double.

(** The implicit conversion of a [float] to [double], which is exact. *)
Definition promote (m : Z) : double :=
  if F32.isNaN m then DNaN
  else if F32.isInf m then DInf (F32.signBit m)
  else DFin (F32.F2R m).

Definition dopp (d : double) : double :=
  match d with
  | DNaN => DNaN
  | DInf s => DInf (negb s)
  | DFin r => DFin (- r)
  end.

(* ================================================================== *)
(** * Double arithmetic                                                *)
(* ================================================================== *)

Definition Rltb (a b : R) : bool := if Rlt_dec a b then true else false.

Definition Reqb (a b : R) : bool := if Req_dec_T a b then true else false.

Section DoubleArith.

(** The rounding of an exact finite result to [double]: the nearest
    double, or an infinity when the result overflows. *)
Variable fl : R -> double.

(** [a * b]: the rounded product of finite operands; an infinity
    times zero is NaN, and times anything else an infinity whose sign
    is the product of the signs ([DInf true] is minus infinity). *)
Definition dmul (a b : double) : double :=
  match a, b with
  | DNaN, _ => DNaN
  | _, DNaN => DNaN
  | DFin x, DFin y => fl (x * y)
  | DInf s, DFin y => if Reqb y 0 then DNaN else DInf (xorb s (Rltb y 0))
  | DFin x, DInf t => if Reqb x 0 then DNaN else DInf (xorb (Rltb x 0) t)
  | DInf s, DInf t => DInf (xorb s t)
  end.

(** [a + b]: the rounded sum of finite operands; an infinity absorbs
    every finite operand, and opposite infinities give NaN. *)
Definition dadd (a b : double) : double :=
  match a, b with
  | DNaN, _ => DNaN
  | _, DNaN => DNaN
  | DFin x, DFin y => fl (x + y)
  | DInf s, DFin _ => DInf s
  | DFin _, DInf t => DInf t
  | DInf s, DInf t => if Bool.eqb s t then DInf s else DNaN
  end.

(** [a - b]. *)
Definition dsub (a b : double) : double := dadd a (dopp b).

End DoubleArith.

(* ================================================================== *)
(** * The source-function accumulators                                 *)
(* ================================================================== *)

(** The two output parameters [*jnu] and [*alpha] of the accumulators.
    Both functions receive their structures by value and write through
    these two pointers only, so the pair is the whole state they touch. *)
Record srcAcc : Type := {
  jnu : double;
  alpha : double
}.

Section SourceFunctions.

(** Rounding of a real result to [double]. *)
Variable fl : R -> double.

(** [sourceFunc_cont]: dust emission and dust opacity of one line,
    [*jnu += gm.dust[lineI]*gm.knu[lineI]; *alpha += gm.knu[lineI];]. *)
Definition sourceFunc_cont (gm : populations) (lineI : Z) (acc : srcAcc)
  : option srcAcc :=
  d <- rd (dust gm) lineI ;;
  k <- rd (knu gm) lineI ;;
  Some {| jnu := dadd fl (jnu acc) (dmul fl (DFin d) (DFin k));
          alpha := dadd fl (alpha acc) (DFin k) |}.

(** [sourceFunc_line]: line emission and line absorption of one line.
    The literal [HPIP] is the double nearest to its decimal expansion;
    products associate to the left, as C parses them. *)
Definition sourceFunc_line (md : molData) (vfac : R) (gm : populations)
  (lineI : Z) (acc : srcAcc) : option srcAcc :=
  let factor :=
    dmul fl (dmul fl (dmul fl (DFin vfac) (fl HPIP)) (DFin (binv gm)))
         (DFin (nmol gm)) in
  up <- rd (lau md) lineI ;;
  n_up <- rd (pops gm) up ;;
  a <- rd (aeinst md) lineI ;;
  lo <- rd (lal md) lineI ;;
  n_lo <- rd (pops gm) lo ;;
  bl <- rd (beinstl md) lineI ;;
  bu <- rd (beinstu md) lineI ;;
  Some {| jnu := dadd fl (jnu acc)
                   (dmul fl (dmul fl factor (DFin n_up)) (DFin a));
          alpha := dadd fl (alpha acc)
                     (dmul fl factor
                        (dsub fl (dmul fl (DFin n_lo) (DFin bl))
                                 (dmul fl (DFin n_up) (DFin bu)))) |}.

End SourceFunctions.

(* ================================================================== *)
(** * [FastExp]                                                        *)
(* ================================================================== *)

Section FastExpDef.

(** Rounding of a real result to [double]. *)
Variable rnd : R -> R.

(** The C library's [exp]. *)
Variable c_exp : double -> double.

(** [extern const double oneOver_i[9]], defined outside the header. *)
Variable oneOver_i : nat -> R.

(** [extern double EXP_TABLE_2D[128][10]] and
    [extern double EXP_TABLE_3D[256][2][10]] of the [FASTEXP] build,
    defined outside the header. *)
Variable EXP_TABLE_2D : Z -> Z -> R.
Variable EXP_TABLE_3D : Z -> Z -> Z -> R.

Definition fmul (a b : R) : R := rnd (a * b).
Definition fsub (a b : R) : R := rnd (a - b).

Definition exponentOffset : Z := 122.
Definition numExponentsUsed : Z := 10.
Definition mantMask0 : Z := 0x007f0000.
Definition mantMask1 : Z := 0x0000ff00.
Definition mantMask2 : Z := 0x000000ff.
Definition mantOffset0 : Z := 16.
Definition mantOffset1 : Z := 8.
Definition mantOffset2 : Z := 0.

(** The loop [for (i=FAST_EXP_MAX_TAYLOR; i>0; i--)
    result = 1.0 - negarg*result*oneOver_i[i];]. *)
Fixpoint taylorLoop (i : nat) (negarg result : R) : R :=
  match i with
  | O => result
  | S i' =>
      taylorLoop i' negarg
        (fsub 1 (fmul (fmul negarg result) (oneOver_i i)))
  end.

Definition expIndex (m : Z) : Z :=
  (Z.shiftr (Z.land m F32.exponentMask) F32.ieee754NumMantBits
   - exponentOffset)%Z.

Definition FastExp (negarg : Z) : double :=
  if F32.lt0 negarg then c_exp (promote (F32.fneg negarg))
  else if F32.eq0 negarg then DFin 1
  else
    let l := expIndex negarg in
    if (l <? 0)%Z then
      DFin (taylorLoop FAST_EXP_MAX_TAYLOR (F32.F2R negarg) 1)
    else if (l >=? numExponentsUsed)%Z then DFin 0
    else
      let j0 := Z.shiftr (Z.land negarg mantMask0) mantOffset0 in
      let j1 := Z.shiftr (Z.land negarg mantMask1) mantOffset1 in
      let j2 := Z.shiftr (Z.land negarg mantMask2) mantOffset2 in
      DFin (fmul (fmul (EXP_TABLE_2D j0 l) (EXP_TABLE_3D j1 0 l))
                 (EXP_TABLE_3D j2 1 l)).

End FastExpDef.

(** ** Reference quantities for the accuracy statements *)

(** The unit roundoff of IEEE 754 double precision, 2^-53. *)
Definition unitRoundoff : R := / 9007199254740992.

(** The standard model of a rounding to double: inside the normal range
    the relative error of one rounding is at most [u]. *)
Definition roundsWithin (u : R) (rnd : R -> R) : Prop :=
  forall v : R,
    1e-300 <= Rabs v <= 1e300 -> Rabs (rnd v - v) <= u * Rabs v.

(** The order of the doubles: minus infinity is below and plus infinity
    above every double, finite doubles compare as reals, and NaN compares
    with nothing. *)
Definition dle (a b : double) : Prop :=
  match a, b with
  | DNaN, _ => False
  | _, DNaN => False
  | DInf true, _ => True
  | _, DInf false => True
  | DFin x, DFin y => x <= y
  | _, _ => False
  end.

(** The standard model of the rounding [fl], overflow included: zero is
    a double, the rounding is monotone (so it never yields NaN), and
    inside the normal range the result is finite with a relative error
    of at most [u].  Below the normal range nothing more is promised: a
    result may underflow to zero. *)
Definition roundsToDouble (u : R) (fl : R -> double) : Prop :=
  fl 0 = DFin 0 /\
  (forall x y : R, x <= y -> dle (fl x) (fl y)) /\
  (forall v : R, 1e-300 <= Rabs v <= 1e300 ->
     exists r : R, fl v = DFin r /\ Rabs (r - v) <= u * Rabs v).

(** [x] is a double: rounding leaves it as it is. *)
Definition isDouble (fl : R -> double) (x : R) : Prop := fl x = DFin x.

(** The degree-[n] Taylor polynomial of [exp (- x)] at 0. *)
Definition taylorPoly (n : nat) (x : R) : R :=
  sum_f_R0 (fun k => (- x) ^ k / INR (fact k)) n.

(** Relative error of [r] as an approximation of [exp (- x)]. *)
Definition relErr (r x : R) : R := Rabs (r - exp (- x)) / exp (- x).

(** What the masks of [FastExp] make of the argument: with [l] the
    exponent index, the 23 mantissa bits are cut into a 7-bit field [j0]
    and two 8-bit fields [j1], [j2], and the argument is the sum of the
    three numbers below.  A table whose product is the exponential holds
    the exponentials of these. *)
Definition tableArg2D (j l : Z) : R :=
  powerRZ 2 (l - 5) * (1 + IZR j / 128).

Definition tableArg3D (j k l : Z) : R :=
  powerRZ 2 (l - 5) * (IZR j / (if (k =? 0)%Z then 32768 else 8388608)).

(** The tables agree with the exponentials of their arguments to within
    the relative error [etab]. *)
Definition tablesWithin (etab : R) (T2 : Z -> Z -> R) (T3 : Z -> Z -> Z -> R)
  : Prop :=
  forall l : Z, (0 <= l < numExponentsUsed)%Z ->
    (forall j : Z, (0 <= j < 128)%Z ->
       Rabs (T2 j l - exp (- tableArg2D j l))
       <= etab * exp (- tableArg2D j l)) /\
    (forall j k : Z, (0 <= j < 256)%Z -> (0 <= k < 2)%Z ->
       Rabs (T3 j k l - exp (- tableArg3D j k l))
       <= etab * exp (- tableArg3D j k l)).

(** The reciprocal table agrees with [1/i] to within one rounding on the
    entries 1..8 (entry 0 is never read). *)
Definition reciprocalsWithin (u : R) (oneOver : nat -> R) : Prop :=
  forall i : nat, (1 <= i <= 8)%nat ->
    Rabs (oneOver i - / INR i) <= u * / INR i.

(** Exact instances: no rounding, the mathematical exponential, exact
    reciprocals and exact tables. *)
Definition exactRnd (v : R) : R := v.

Definition exactFl (v : R) : double := DFin v.

Definition exactExp (d : double) : double :=
  match d with
  | DNaN => DNaN
  | DInf true => DFin 0
  | DInf false => DInf false
  | DFin r => DFin (exp r)
  end.

Definition exactOneOver (i : nat) : R := / INR i.

Definition exactTable2D (j l : Z) : R := exp (- tableArg2D j l).

Definition exactTable3D (j k l : Z) : R := exp (- tableArg3D j k l).

(* ================================================================== *)
(** * Grid points and cells                                            *)
(* ================================================================== *)

Module Point.
(** [point]. *)
Record point : Type := {
  x : list R;
  xn : list R
}.
End Point.

Module Grid.

(** [struct grid].  The pointers [neigh] to other grid points are
    indices into the grid array. *)
Record grid : Type := {
  id : Z;
  x : list R;
  vel : list R;
  B : list R;
  v1 : list R;
  v2 : list R;
  v3 : list R;
  numNeigh : Z;
  dir : list Point.point;
  neigh : list Z;
  w : list R;
  sink : Z;
  nphot : Z;
  conv : Z;
  dens : list R;
  t : list R;
  abun : list R;
  dopb : R;
  ds : list R;
  mol : list populations
}.

(** The three fields that the iteration writes. *)
Definition update (g : grid) (mol' : list populations) (conv' nphot' : Z)
  : grid :=
  {| id := id g; x := x g; vel := vel g; B := B g;
     v1 := v1 g; v2 := v2 g; v3 := v3 g;
     numNeigh := numNeigh g; dir := dir g; neigh := neigh g; w := w g;
     sink := sink g; nphot := nphot'; conv := conv';
     dens := dens g; t := t g; abun := abun g; dopb := dopb g;
     ds := ds g; mol := mol' |}.

End Grid.

Module Cell.

(** [struct cell].  [vertx] holds indices into the grid array and
    [neigh] indices into the cell array, [None] for a NULL pointer, which
    flags an external face. *)
Record cell : Type := {
  vertx : list Z;
  neigh : list (option Z);
  id : Z;
  centre : list R
}.

End Cell.

(** [pops] replaced, everything else kept. *)
Definition setPops (gm : populations) (p : list R) : populations :=
  {| pops := p; knu := knu gm; dust := dust gm; dopb := dopb gm;
     binv := binv gm; nmol := nmol gm; partner := partner gm |}.

Definition sumR (l : list R) : R := fold_right Rplus 0 l.

Definition dot (a b : list R) : R :=
  sumR (map (fun p => fst p * snd p) (combine a b)).

(* ================================================================== *)
(** * The statistical-equilibrium solver                               *)
(* ================================================================== *)

Section Solver.

(** The external linear-algebra primitive: matrix and right-hand side
    in, solution out, [None] when the matrix is singular or
    ill-conditioned. *)
Variable solve : list (list R) -> list R -> option (list R).

(** Modelled from the spec: the assembly of the rate matrix in
    [getmatrix], whose body is not in the header.  Off-diagonal entry
    (i,j) is the collisional plus the radiative rate; the diagonal makes
    every row sum to zero. *)
Definition rateRow (n : nat) (coll rad : nat -> nat -> R) (i : nat)
  : list R :=
  let off j := coll i j + rad i j in
  map (fun j =>
         if Nat.eqb i j
         then - sumR (map off (filter (fun k => negb (Nat.eqb i k))
                                      (seq 0 n)))
         else off j)
      (seq 0 n).

Definition rateMatrix (n : nat) (coll rad : nat -> nat -> R)
  : list (list R) :=
  map (rateRow n coll rad) (seq 0 n).

(** Modelled from the spec: the matrix is closed with one row (the
    last) replaced by the total-density normalisation equation. *)
Definition closeMatrix (n : nat) (M : list (list R)) : list (list R) :=
  firstn (n - 1) M ++ [repeat 1 n].

Definition closeRhs (n : nat) (total : R) : list R :=
  repeat 0 (n - 1) ++ [total].

(** Modelled from the spec: the closed-form LTE (Boltzmann) populations
    of [lteOnePoint], whose body is not in the header: level [i] takes
    the share [g_i exp(-HCKB E_i / T)] of the total density. *)
Definition boltzmann (md : molData) (T : R) : list R :=
  map (fun ge => fst ge * exp (- (HCKB * snd ge / T)))
      (combine (gstat md) (eterm md)).

Definition lteOnePoint (md : molData) (T : R) (total : R) : list R :=
  let wts := boltzmann md T in
  map (fun wi => total * wi / sumR wts) wts.

Definition negativeEntry (p : list R) : bool :=
  existsb (fun v => Rltb v 0) p.

(** Modelled from the spec: [stateq], whose body is not in the header.
    The closed system is handed to the linear solver; a singular solve or
    a solution with a negative entry is rejected and replaced by the LTE
    populations.  The flag returned tells the caller that the result was
    rejected, so that it marks the vertex as not converged. *)
Definition stateq (md : molData) (coll rad : nat -> nat -> R) (T : R)
  (gm : populations) : populations * bool :=
  let n := Z.to_nat (nlev md) in
  match solve (closeMatrix n (rateMatrix n coll rad))
              (closeRhs n (nmol gm)) with
  | Some p =>
      if negativeEntry p
      then (setPops gm (lteOnePoint md T (nmol gm)), true)
      else (setPops gm p, false)
  | None => (setPops gm (lteOnePoint md T (nmol gm)), true)
  end.

End Solver.

(* ================================================================== *)
(** * The radiation estimator                                          *)
(* ================================================================== *)

(** Running sums of the per-transition intensity samples. *)
Record estimator : Type := {
  nrays : nat;
  sums : list R;
  sumsqs : list R
}.

Section Estimator.

(** The convergence goal on the sample variance. *)
Variable varGoal : R.

Definition emptyEstimator (nlines : nat) : estimator :=
  {| nrays := 0; sums := repeat 0 nlines; sumsqs := repeat 0 nlines |}.

Definition addSample (e : estimator) (s : list R) : estimator :=
  {| nrays := S (nrays e);
     sums := map (fun p => fst p + snd p) (combine (sums e) s);
     sumsqs := map (fun p => fst p + snd p * snd p)
                   (combine (sumsqs e) s) |}.

Definition variances (e : estimator) : list R :=
  map (fun p => snd p / INR (nrays e)
                - (fst p / INR (nrays e)) * (fst p / INR (nrays e)))
      (combine (sums e) (sumsqs e)).

Definition jbarOf (e : estimator) : list R :=
  map (fun s => s / INR (nrays e)) (sums e).

Definition varianceBelowGoal (e : estimator) : bool :=
  Nat.leb 2 (nrays e) && forallb (fun v => Rltb v varGoal) (variances e).

(** Modelled from the spec: the ray loop of [photon], whose body is not
    in the header.  Rays are issued until the budget is exhausted or the
    sample variance falls below the goal; [ray k] is the sample of the
    k-th ray of the (seeded, hence fixed) direction stream. *)
Fixpoint photonLoop (budget : nat) (ray : nat -> list R) (e : estimator)
  : estimator :=
  match budget with
  | O => e
  | S budget' =>
      if varianceBelowGoal e then e
      else photonLoop budget' ray (addSample e (ray (nrays e)))
  end.

Definition photon (nphot : Z) (nlines : nat) (ray : nat -> list R)
  : estimator :=
  photonLoop (Z.to_nat nphot) ray (emptyEstimator nlines).

(** Modelled from the spec: the photon budget of a vertex, bounded by
    [max_phot] and initialised from [ininphot]; that of a vertex that
    has not converged adapts upward.  By how much is left open by the
    spec, hence the [policy]. *)
Definition initialBudget : Z := ininphot.

Definition adaptBudget (policy : Z -> Z) (conv nphot : Z) : Z :=
  if (conv =? 0)%Z
  then Z.min max_phot (Z.max nphot (policy nphot))
  else nphot.

End Estimator.

(* ================================================================== *)
(** * The convergence driver                                           *)
(* ================================================================== *)

Inductive driverState : Type :=
| UNCONVERGED
| ITERATING
| CONVERGED
| FAILED.

Record driver : Type := {
  state : driverState;
  nItersDone : nat;
  stableRun : nat;
  mesh : list Grid.grid
}.

(** The arrows of the state machine, and its terminal states. *)
Definition allowed (a b : driverState) : bool :=
  match a, b with
  | UNCONVERGED, ITERATING => true
  | ITERATING, ITERATING => true
  | ITERATING, CONVERGED => true
  | ITERATING, FAILED => true
  | CONVERGED, CONVERGED => true
  | FAILED, FAILED => true
  | _, _ => false
  end.

Definition terminal (s : driverState) : bool :=
  match s with
  | CONVERGED | FAILED => true
  | UNCONVERGED | ITERATING => false
  end.

Section Driver.

Variable solve : list (list R) -> list R -> option (list R).
(** The molecular data, one record per species. *)
Variable mds : list molData.
(** Collisional rates of a vertex and species, from the rate tables. *)
Variable collRate : Grid.grid -> nat -> nat -> nat -> R.
(** Radiative rates of a species from the mean intensities. *)
Variable radRate : list R -> nat -> nat -> nat -> R.
(** The sample of one ray cast from a vertex across the mesh. *)
Variable castRay : list Grid.grid -> Grid.grid -> nat -> list R.
Variable varGoal : R.
Variable policy : Z -> Z.
(** Length of the stability window and iteration cap. *)
Variable window : nat.
Variable maxIter : nat.

Definition nlinesOf : nat :=
  fold_right Nat.max 0%nat (map (fun md => Z.to_nat (nline md)) mds).

(** The fractional population change of a vertex is below [fixset] on
    every level of every species. *)
Definition popsStable (old new : list R) : bool :=
  forallb (fun p => Rltb (Rabs (snd p - fst p) / snd p) fixset)
          (combine old new).

Definition vertexStable (old new : list populations) : bool :=
  forallb (fun p => popsStable (pops (fst p)) (pops (snd p)))
          (combine old new).

(** Modelled from the spec: the work of one sweep on one vertex.  A sink
    vertex is left alone.  On any other vertex the estimator runs on the
    mesh of the previous iteration, then the solver runs for every
    species; the vertex is flagged converged when no solve was rejected
    and its populations are stable, and its photon budget is adapted. *)
Definition updateVertex (G : list Grid.grid) (v : Grid.grid) : Grid.grid :=
  if negb (Grid.sink v =? 0)%Z then v
  else
    let e := photon varGoal (Grid.nphot v) nlinesOf (castRay G v) in
    let T := nth 0 (Grid.t v) 0 in
    let res :=
      map (fun p =>
             let ispec := fst p in
             stateq solve (fst (snd p)) (collRate v ispec)
                    (radRate (jbarOf e) ispec) T (snd (snd p)))
          (combine (seq 0 (length (Grid.mol v)))
                   (combine mds (Grid.mol v))) in
    let mol' := map fst res in
    let rejected := existsb snd res in
    let conv' :=
      if rejected then 0%Z
      else if vertexStable (Grid.mol v) mol' then 1%Z else 0%Z in
    Grid.update v mol' conv' (adaptBudget policy conv' (Grid.nphot v)).

(** All vertices are updated from the same previous mesh. *)
Definition sweep (G : list Grid.grid) : list Grid.grid :=
  map (updateVertex G) G.

(** Modelled from the spec: after the sweep, the fraction of vertices
    whose fractional population change is below [fixset] is compared
    with [goal] percent. *)
Definition stableCount (G G' : list Grid.grid) : nat :=
  length (filter (fun p => vertexStable (Grid.mol (fst p))
                                        (Grid.mol (snd p)))
                 (combine G G')).

Definition exceedsGoal (G G' : list Grid.grid) : bool :=
  Rltb (goal * INR (length G)) (100 * INR (stableCount G G')).

(** Modelled from the spec: the state machine of [levelPops], whose
    body is not in the header. *)
Definition step (d : driver) : driver :=
  match state d with
  | UNCONVERGED =>
      {| state := ITERATING; nItersDone := nItersDone d;
         stableRun := stableRun d; mesh := mesh d |}
  | ITERATING =>
      let G' := sweep (mesh d) in
      let run' := if exceedsGoal (mesh d) G' then S (stableRun d)
                  else 0%nat in
      let it' := S (nItersDone d) in
      {| state := if Nat.leb window run' then CONVERGED
                  else if Nat.leb maxIter it' then FAILED
                  else ITERATING;
         nItersDone := it'; stableRun := run'; mesh := G' |}
  | CONVERGED => d
  | FAILED => d
  end.

Fixpoint run (fuel : nat) (d : driver) : driver :=
  match fuel with
  | O => d
  | S fuel' => run fuel' (step d)
  end.

Definition initDriver (G : list Grid.grid) : driver :=
  {| state := UNCONVERGED; nItersDone := 0; stableRun := 0; mesh := G |}.

Definition levelPops (G : list Grid.grid) : driver :=
  run (2 + maxIter) (initDriver G).

(** The mesh after [k] sweeps, and the number of sweeps, counted back
    from the [k]-th, that exceeded the goal without interruption. *)
Fixpoint sweeps (k : nat) (G : list Grid.grid) : list Grid.grid :=
  match k with
  | O => G
  | S k' => sweep (sweeps k' G)
  end.

Fixpoint stableRunAt (G : list Grid.grid) (k : nat) : nat :=
  match k with
  | O => 0
  | S k' =>
      if exceedsGoal (sweeps k' G) (sweeps k G)
      then S (stableRunAt G k') else 0
  end.

End Driver.

(* ================================================================== *)
(** * The mesh of Delaunay cells                                       *)
(* ================================================================== *)

Definition memZ (v : Z) (l : list Z) : bool := existsb (Z.eqb v) l.

(** The face of a simplex opposite its [i]-th vertex: all the vertices
    but that one. *)
Definition face (verts : list Z) (i : nat) : list Z :=
  firstn i verts ++ skipn (S i) verts.

(** A simplex [other] abuts face [i] of [verts]: it holds the whole face
    and not the vertex opposite. *)
Definition abuts (verts : list Z) (i : nat) (other : list Z) : bool :=
  forallb (fun v => memZ v other) (face verts i)
  && negb (memZ (nth i verts 0%Z) other).

Section Mesh.

(** The output of the external triangulation: the vertex indices of
    every simplex, and for every simplex the simplices adjacent to it. *)
Variable simplices : list (list Z).
Variable adjacency : list (list nat).
Variable points : list (list R).

Definition abutsAt (verts : list Z) (i : nat) (k : nat) : bool :=
  match nth_error simplices k with
  | Some other => abuts verts i other
  | None => false
  end.

Definition neighbourAcross (adj : list nat) (verts : list Z) (i : nat)
  : option Z :=
  option_map Z.of_nat (find (abutsAt verts i) adj).

Definition centroid (verts : list Z) : list R :=
  map (fun axis =>
         sumR (map (fun v => nth axis (nth (Z.to_nat v) points []) 0) verts)
         / INR (length verts))
      (seq 0 DIM).

(** Modelled from the spec: the cells that [delaunay], whose body is
    not in the header, makes of the triangulation.  Entry [i] of [neigh]
    is the adjacent simplex lying across the face opposite vertex [i],
    and NULL when there is none. *)
Definition buildCell (k : nat) (verts : list Z) : Cell.cell :=
  {| Cell.vertx := verts;
     Cell.neigh := map (neighbourAcross (nth k adjacency []) verts)
                       (seq 0 (DIM + 1));
     Cell.id := Z.of_nat k;
     Cell.centre := centroid verts |}.

Definition delaunay : list Cell.cell :=
  map (fun p => buildCell (fst p) (snd p))
      (combine (seq 0 (length simplices)) simplices).

End Mesh.

(** The pointer [c.neigh[i]] followed in the cell array. *)
Definition neighbourCell (cells : list Cell.cell) (c : Cell.cell) (i : nat)
  : option Cell.cell :=
  match nth i (Cell.neigh c) None with
  | Some k => rd cells k
  | None => None
  end.

(** Modelled from the spec: [getNewEntryFaceI], whose body is not in the
    header: the index, among the faces of the cell entered, of the face
    shared with the cell just left, found by the identifier of that
    cell. *)
Fixpoint entryFaceFrom (cells : list Cell.cell) (dci : Z)
  (nb : list (option Z)) (ffi : nat) : option nat :=
  match nb with
  | [] => None
  | n :: rest =>
      match n with
      | Some k =>
          match rd cells k with
          | Some c' =>
              if (Cell.id c' =? dci)%Z then Some ffi
              else entryFaceFrom cells dci rest (S ffi)
          | None => entryFaceFrom cells dci rest (S ffi)
          end
      | None => entryFaceFrom cells dci rest (S ffi)
      end
  end.

Definition getNewEntryFaceI (cells : list Cell.cell) (dci : Z)
  (newCell : Cell.cell) : option nat :=
  entryFaceFrom cells dci (Cell.neigh newCell) 0.

Section Traversal.

Variable cells : list Cell.cell.

(** The geometric test that picks the face through which the ray
    leaves a cell entered through face [entry]. *)
Variable exitFace : Cell.cell -> option nat -> option nat.

(** Modelled from the spec: the march of [followRayThroughDelCells],
    whose body is not in the header, from cell to cell until an external
    face is met.  The cell array is only read.  The chain of the cells
    visited is returned with the face through which each was left. *)
Fixpoint followRay (fuel : nat) (c : Cell.cell) (entry : option nat)
  : list (Cell.cell * nat) :=
  match fuel with
  | O => []
  | S fuel' =>
      match exitFace c entry with
      | None => []
      | Some i =>
          (c, i) ::
          match neighbourCell cells c i with
          | None => []
          | Some c' =>
              followRay fuel' c' (getNewEntryFaceI cells (Cell.id c) c')
          end
      end
  end.

End Traversal.

(** The invariant of [struct cell]: what lies across face [i] of [c] is
    the cell [neigh[i]], which holds the whole face opposite [vertx[i]]
    and not [vertx[i]] itself. *)
Definition oppositeFace (cells : list Cell.cell) (c : Cell.cell) (i : nat)
  : Prop :=
  match nth i (Cell.neigh c) None with
  | Some k =>
      exists c' : Cell.cell,
        rd cells k = Some c' /\
        (forall v, In v (face (Cell.vertx c) i) -> In v (Cell.vertx c')) /\
        ~ In (nth i (Cell.vertx c) 0%Z) (Cell.vertx c')
  | None => True
  end.

Definition meshInvariant (cells : list Cell.cell) : Prop :=
  forall c : Cell.cell, In c cells ->
    forall i : nat, (i <= DIM)%nat -> oppositeFace cells c i.

(* ================================================================== *)
(** * Auxiliary notions of the statements and proofs                 *)
(* ================================================================== *)

(** Well-formed molecular data, as far as the solver needs it: at least
    one level, one energy and one positive statistical weight per level. *)
Definition wfLevels (md : molData) : Prop :=
  (1 <= length (gstat md))%nat /\
  length (eterm md) = length (gstat md) /\
  nlev md = Z.of_nat (length (gstat md)) /\
  Forall (fun g => 0 < g) (gstat md).

(** The linear solver returns what it is asked for: a vector as long as
    the right-hand side that satisfies every equation to within [tol]. *)
Definition solverWithin (tol : R)
  (solve : list (list R) -> list R -> option (list R)) : Prop :=
  forall M b p, solve M b = Some p ->
    length p = length b /\
    Forall2 (fun row bi => Rabs (dot row p - bi) <= tol) M b.

(** The terms of the exponential series. *)
Definition expTerm (x : R) (n : nat) : R := x ^ n / INR (fact n).

(** [v] approximates the positive [V] with relative error at most [e]. *)
Definition rel (v V e : R) : Prop := V * (1 - e) <= v <= V * (1 + e).

(* ================================================================== *)
(** * Concrete inputs                                                *)
(* ================================================================== *)

(** A two-level molecule and a gas with an inverted population, used as
    concrete inputs. *)
Definition twoLevel : molData :=
  {| nlev := 2; nline := 1; npart := 0;
     lal := [0%Z]; lau := [1%Z];
     aeinst := [1e-5]; freq := [1]; beinstu := [1]; beinstl := [1];
     eterm := [0; 1]; gstat := [1; 3];
     cmb := [0]; local_cmb := [0]; amass := 1; part := [] |}.

Definition invertedGas : populations :=
  {| pops := [1; 2]; knu := [0]; dust := [0];
     dopb := 1; binv := 1; nmol := 3; partner := [] |}.

Definition zeroAcc : srcAcc := {| jnu := DFin 0; alpha := DFin 0 |}.

(** A solver that only certifies a candidate: it returns [x0] when [x0]
    solves the system exactly and reports failure otherwise. *)
Definition trialSolve (x0 : list R) (M : list (list R)) (b : list R)
  : option (list R) :=
  if Nat.eqb (length x0) (length b) && Nat.eqb (length M) (length b)
     && forallb (fun rb => Reqb (dot (fst rb) x0) (snd rb)) (combine M b)
  then Some x0 else None.

(** A solver on which every solve is singular. *)
Definition singularSolve (M : list (list R)) (b : list R)
  : option (list R) := None.

(* ---------------- sourceFunc_line ------------------------------------ *)

(** A mesh of two grid points, one of them a sink, and an environment
    for the driver. *)
Definition freeVertex : Grid.grid :=
  {| Grid.id := 1; Grid.x := [0; 0; 0]; Grid.vel := [0; 0; 0];
     Grid.B := [0; 0; 0]; Grid.v1 := []; Grid.v2 := []; Grid.v3 := [];
     Grid.numNeigh := 1; Grid.dir := []; Grid.neigh := [0%Z]; Grid.w := [1];
     Grid.sink := 0; Grid.nphot := 9; Grid.conv := 0;
     Grid.dens := [1000]; Grid.t := [10; 10]; Grid.abun := [1];
     Grid.dopb := 1; Grid.ds := [1]; Grid.mol := [invertedGas] |}.

Definition sinkVertex : Grid.grid :=
  {| Grid.id := 0; Grid.x := [1; 0; 0]; Grid.vel := [0; 0; 0];
     Grid.B := [0; 0; 0]; Grid.v1 := []; Grid.v2 := []; Grid.v3 := [];
     Grid.numNeigh := 1; Grid.dir := []; Grid.neigh := [1%Z]; Grid.w := [1];
     Grid.sink := 1; Grid.nphot := 9; Grid.conv := 0;
     Grid.dens := [1000]; Grid.t := [10; 10]; Grid.abun := [1];
     Grid.dopb := 1; Grid.ds := [1]; Grid.mol := [invertedGas] |}.

Definition twoPointMesh : list Grid.grid := [sinkVertex; freeVertex].

Definition noColl (v : Grid.grid) (ispec i j : nat) : R := 0.
Definition unitColl (i j : nat) : R := 1.
Definition noRad (i j : nat) : R := 0.
Definition jbarRad (jbar : list R) (ispec i j : nat) : R := nth 0 jbar 0.
Definition unitRay (G : list Grid.grid) (v : Grid.grid) (k : nat) : list R :=
  [1].
Definition tenMore (n : Z) : Z := (n + 10)%Z.

(* ================================================================== *)
(** * Further constants and well-formedness of the line data           *)
(* ================================================================== *)

Module Consts.

(** The physical constants of [lime.h] from which [HPIP], [HCKB] and
  [PC] are derived, and the header's own [PI] and [SPI]. *)
Definition AMU : R := 1.66053904e-27.
Definition CLIGHT : R := 2.99792458e8.
Definition HPLANCK : R := 6.626070040e-34.
Definition KBOLTZ : R := 1.38064852e-23.
Definition GRAV : R := 6.67428e-11.
Definition AU : R := 1.495978707e11.
Definition PC : R := 3.08567758e16.
Definition PI : R := 3.14159265358979323846.
Definition SPI : R := 1.77245385091.

End Consts.

(** The arrays read by [sourceFunc_line] and [sourceFunc_cont] are as
    long as [nline] says, and the level indices [lau], [lal] of every
    line point into [pops]. *)
Definition wfLineData (md : molData) (gm : populations) : Prop :=
  let n := Z.to_nat (nline md) in
  length (lau md) = n /\ length (lal md) = n /\
  length (aeinst md) = n /\
  length (beinstu md) = n /\ length (beinstl md) = n /\
  length (knu gm) = n /\ length (dust gm) = n /\
  Forall (fun i => (0 <= i < Z.of_nat (length (pops gm)))%Z) (lau md) /\
  Forall (fun i => (0 <= i < Z.of_nat (length (pops gm)))%Z) (lal md).

(* ================================================================== *)
(** * Bounds of the exponential and arithmetic under rounding        *)
(* ================================================================== *)

Lemma expTerm_decreasing (x : R) :
  0 <= x <= 1 -> Un_decreasing (expTerm x).
Proof.
  intros Hx n. unfold expTerm.
  assert (Hf : 0 < INR (fact n)) by (apply lt_0_INR, lt_O_fact).
  assert (Hp : 0 <= x ^ n) by (apply pow_le; lra).
  rewrite fact_simpl, mult_INR, S_INR. simpl pow.
  assert (Hn : 0 <= INR n) by apply pos_INR.
  unfold Rdiv. rewrite Rinv_mult.
  assert (Hi : 0 < / INR (fact n)) by (apply Rinv_0_lt_compat; exact Hf).
  assert (Hq : 0 <= x ^ n * / INR (fact n)) by (apply Rmult_le_pos; lra).
  assert (Hs : 0 < / (INR n + 1) <= 1).
  { split. apply Rinv_0_lt_compat; lra.
    rewrite <- Rinv_1. apply Rinv_le_contravar; lra. }
  replace (x * x ^ n * (/ (INR n + 1) * / INR (fact n)))
    with ((x * / (INR n + 1)) * (x ^ n * / INR (fact n))) by ring.
  assert (0 <= x * / (INR n + 1) <= 1) by nra.
  nra.
Qed.

Lemma expSeries_alt (x : R) :
  Un_cv (fun N => sum_f_R0 (tg_alt (expTerm x)) N) (exp (- x)).
Proof.
  apply Un_cv_ext with (un := E1 (- x)); [ | apply E1_cvg ].
  intro n. unfold E1. apply sum_eq. intros i _.
  unfold tg_alt, expTerm.
  replace (- x) with (-1 * x) by ring.
  rewrite Rpow_mult_distr. unfold Rdiv. ring.
Qed.

Lemma exp_neg_taylor3 (x : R) :
  0 <= x <= 1 ->
  1 - x + x ^ 2 / 2 - x ^ 3 / 6 <= exp (- x)
  <= 1 - x + x ^ 2 / 2 - x ^ 3 / 6 + x ^ 4 / 24.
Proof.
  intro Hx.
  pose proof (alternated_series_ineq (expTerm x) (exp (- x)) 1
                (expTerm_decreasing x Hx) (cv_speed_pow_fact x)
                (expSeries_alt x)) as [Hlo _].
  pose proof (alternated_series_ineq (expTerm x) (exp (- x)) 2
                (expTerm_decreasing x Hx) (cv_speed_pow_fact x)
                (expSeries_alt x)) as [_ Hhi].
  unfold tg_alt, expTerm in Hlo, Hhi. simpl in Hlo, Hhi.
  split; lra.
Qed.
Lemma Rabs_le_inv x y : Rabs x <= y -> - y <= x <= y.
Proof. unfold Rabs. destruct (Rcase_abs x); lra. Qed.

Lemma mul_bounds a b la ha lb hb :
  0 <= la <= a -> a <= ha -> 0 <= lb <= b -> b <= hb ->
  la * lb <= a * b <= ha * hb.
Proof. intros. split; apply Rmult_le_compat; lra. Qed.

(** The product of two bounded non-negative reals, by linear
    arithmetic from [mul_bounds]. *)
Ltac by_mul_bounds a b la ha lb hb :=
  pose proof (mul_bounds a b la ha lb hb); lra.

Lemma mul_near a a0 b b0 ea eb A B :
  0 <= a <= A -> 0 <= b0 <= B -> 0 <= ea -> 0 <= eb ->
  a0 - ea <= a <= a0 + ea -> b0 - eb <= b <= b0 + eb ->
  a0 * b0 - (ea * B + eb * A) <= a * b <= a0 * b0 + (ea * B + eb * A).
Proof.
  intros Ha Hb0 Hea Heb Ea Eb.
  replace (a * b) with (a0 * b0 + (a - a0) * b0 + a * (b - b0)) by ring.
  assert (- (ea * B) <= (a - a0) * b0 <= ea * B) by nra.
  assert (- (eb * A) <= a * (b - b0) <= eb * A) by nra.
  lra.
Qed.

Section Rounding.

Variable u : R.
Hypothesis u_range : 0 <= u <= unitRoundoff.
Variable rnd : R -> R.
Hypothesis rnd_ok : roundsWithin u rnd.

Lemma rnd_pos v :
  1e-300 <= v <= 1e300 -> v * (1 - u) <= rnd v <= v * (1 + u).
Proof.
  intros Hv. assert (Ha : Rabs v = v) by (apply Rabs_pos_eq; lra).
  pose proof (rnd_ok v) as H. rewrite Ha in H.
  specialize (H Hv). apply Rabs_le_inv in H. lra.
Qed.

(** Rounding a positive value that is within [e] of an ideal one. *)
Lemma rnd_near v v0 e L V :
  1e-300 <= L -> L <= v <= V -> V <= 1e300 -> v0 - e <= v <= v0 + e ->
  v0 - (e + u * V) <= rnd v <= v0 + (e + u * V) /\
  L * (1 - u) <= rnd v <= V * (1 + u).
Proof.
  intros HL Hv HV He. unfold unitRoundoff in u_range.
  pose proof (rnd_pos v ltac:(lra)) as H.
  pose proof (mul_bounds v u L V 0 u
                ltac:(lra) ltac:(lra) ltac:(lra) ltac:(lra)).
  pose proof (mul_bounds v (1 - u) L V (1 - u) (1 - u)
                ltac:(lra) ltac:(lra) ltac:(lra) ltac:(lra)).
  pose proof (mul_bounds v (1 + u) L V (1 + u) (1 + u)
                ltac:(lra) ltac:(lra) ltac:(lra) ltac:(lra)).
  lra.
Qed.

(** One turn of the Taylor loop: the error of [result] does not grow
    beyond two units of roundoff. *)
Lemma step_error x r r0 c o :
  1e-46 <= x <= / 32 -> 31 / 32 <= r0 <= 1 ->
  r0 - 2 * u <= r <= r0 + 2 * u ->
  / 8 <= c <= 1 -> Rabs (o - c) <= u * c ->
  1 - x * r0 * c - 2 * u
  <= fsub rnd 1 (fmul rnd (fmul rnd x r) o)
  <= 1 - x * r0 * c + 2 * u.
Proof.
  intros Hx Hr0 Hr Hc Ho. unfold fsub, fmul.
  apply Rabs_le_inv in Ho. unfold unitRoundoff in u_range.
  assert (Hrb : 9 / 10 <= r <= 11 / 10) by lra.
  assert (Hcu : 0 <= u * c <= u).
  { by_mul_bounds u c 0 u 0 1. }
  assert (Hob : / 10 <= o <= 11 / 10) by lra.
  assert (Hv1 : 1e-47 <= x * r <= / 16).
  { by_mul_bounds x r 1e-46 (/ 32) (9 / 10) (11 / 10). }
  assert (Ev1 : x * r0 - u / 16 <= x * r <= x * r0 + u / 16).
  { pose proof (mul_near x x r r0 0 (2 * u) (/ 32) 1) as H. lra. }
  destruct (rnd_near (x * r) (x * r0) (u / 16) 1e-47 (/ 16)
              ltac:(lra) ltac:(lra) ltac:(lra) Ev1) as [Ea Ha].
  set (a := rnd (x * r)) in *.
  assert (Hv2 : 1e-50 <= a * o <= / 4).
  { by_mul_bounds a o 1e-48 (/ 8) (/ 10) (11 / 10). }
  assert (Hxr0 : 0 <= x * r0 <= / 32).
  { by_mul_bounds x r0 0 (/ 32) 0 1. }
  assert (Ev2 : x * r0 * c - u / 4 <= a * o <= x * r0 * c + u / 4).
  { pose proof (mul_near a (x * r0) o c (u / 16 + u * / 16) u (/ 8) 1) as H.
    lra. }
  destruct (rnd_near (a * o) (x * r0 * c) (u / 4) 1e-50 (/ 4)
              ltac:(lra) ltac:(lra) ltac:(lra) Ev2) as [Eb Hb].
  set (b := rnd (a * o)) in *.
  assert (Hv3 : 0 <= x * r0 * c <= / 32).
  { by_mul_bounds (x * r0) c 0 (/ 32) 0 1. }
  destruct (rnd_near (1 - b) (1 - x * r0 * c) (u / 2) (/ 2) 1
              ltac:(lra) ltac:(lra) ltac:(lra) ltac:(lra)) as [Er _].
  lra.
Qed.

Variable oneOver_i : nat -> R.
Hypothesis oneOver_ok : reciprocalsWithin u oneOver_i.

Lemma taylorPoly_3 x :
  taylorPoly 3 x = 1 - x * (1 - x * (1 - x * 1 * / 3) * / 2) * / 1.
Proof. unfold taylorPoly. simpl. field. Qed.

(** The loop of [FastExp] on an argument of the Taylor region. *)
Lemma taylorLoop_error x :
  1e-46 <= x < / 32 ->
  Rabs (taylorLoop rnd oneOver_i FAST_EXP_MAX_TAYLOR x 1
        - taylorPoly FAST_EXP_MAX_TAYLOR x) <= 2 * u.
Proof.
  intros Hx. unfold FAST_EXP_MAX_TAYLOR. rewrite taylorPoly_3.
  unfold unitRoundoff in u_range. simpl taylorLoop.
  pose proof (oneOver_ok 3%nat ltac:(lia)) as H3.
  pose proof (oneOver_ok 2%nat ltac:(lia)) as H2.
  pose proof (oneOver_ok 1%nat ltac:(lia)) as H1.
  simpl INR in H1, H2, H3.
  replace (1 + 1 + 1) with 3 in H3 by ring.
  replace (1 + 1) with 2 in H2 by ring.
  pose proof (step_error x 1 1 (/ 3) (oneOver_i 3)
                ltac:(lra) ltac:(lra) ltac:(lra) ltac:(lra) H3) as S3.
  set (r3 := fsub rnd 1 (fmul rnd (fmul rnd x 1) (oneOver_i 3))) in *.
  assert (B3 : 31 / 32 <= 1 - x * 1 * / 3 <= 1) by lra.
  pose proof (step_error x r3 (1 - x * 1 * / 3) (/ 2) (oneOver_i 2)
                ltac:(lra) B3 S3 ltac:(lra) H2) as S2.
  set (r2 := fsub rnd 1 (fmul rnd (fmul rnd x r3) (oneOver_i 2))) in *.
  assert (B2 : 31 / 32 <= 1 - x * (1 - x * 1 * / 3) * / 2 <= 1).
  { by_mul_bounds x (1 - x * 1 * / 3) 0 (/ 32) 0 1. }
  pose proof (step_error x r2 (1 - x * (1 - x * 1 * / 3) * / 2) (/ 1)
                (oneOver_i 1) ltac:(lra) B2 S2 ltac:(lra) H1) as S1.
  apply Rabs_le. lra.
Qed.

End Rounding.

Lemma relErr_le r x e :
  Rabs (r - exp (- x)) <= e * exp (- x) -> relErr r x <= e.
Proof.
  intro H. unfold relErr. pose proof (exp_pos (- x)) as Hp.
  apply Rmult_le_reg_r with (exp (- x)); [ exact Hp | ].
  unfold Rdiv. rewrite Rmult_assoc, Rinv_l by lra. lra.
Qed.

Lemma relErr_lt r x e :
  Rabs (r - exp (- x)) < e * exp (- x) -> relErr r x < e.
Proof.
  intro H. unfold relErr. pose proof (exp_pos (- x)) as Hp.
  apply Rmult_lt_reg_r with (exp (- x)); [ exact Hp | ].
  unfold Rdiv. rewrite Rmult_assoc, Rinv_l by lra. lra.
Qed.

Lemma relErr_zero x : relErr 0 x = 1.
Proof.
  unfold relErr. pose proof (exp_pos (- x)) as Hp.
  rewrite Rminus_0_l, Rabs_Ropp, Rabs_pos_eq by lra.
  field. lra.
Qed.

(** Truncation plus rounding in the Taylor region. *)
Lemma taylor_relErr u r x :
  0 <= u <= unitRoundoff -> 0 <= x < / 32 ->
  Rabs (r - taylorPoly 3 x) <= 2 * u ->
  relErr r x < 1e-4.
Proof.
  intros Hu Hx Hr. unfold unitRoundoff in Hu.
  apply Rabs_le_inv in Hr.
  pose proof (exp_neg_taylor3 x ltac:(lra)) as He.
  assert (Hp : taylorPoly 3 x = 1 - x + x ^ 2 / 2 - x ^ 3 / 6).
  { unfold taylorPoly. simpl. field. }
  rewrite Hp in Hr.
  assert (Hx4 : 0 <= x ^ 4 / 24 <= 1e-7).
  { assert (0 <= x * x <= / 1024)
      by (by_mul_bounds x x 0 (/ 32) 0 (/ 32)).
    pose proof (mul_bounds (x * x) (x * x) 0 (/ 1024) 0 (/ 1024)).
    replace (x ^ 4) with (x * x * (x * x)) by ring. lra. }
  assert (Hx3 : 0 <= x ^ 3 / 6 <= x ^ 2 / 2).
  { assert (0 <= x * x)
      by (by_mul_bounds x x 0 (/ 32) 0 (/ 32)).
    pose proof (mul_bounds (x * x) x 0 (x * x) 0 (/ 32)).
    replace (x ^ 3) with (x * x * x) by ring.
    replace (x ^ 2) with (x * x) by ring. lra. }
  apply relErr_lt. apply Rabs_def1; lra.
Qed.

(** Bounds of the exponential on the arguments of the table region. *)
Lemma exp_32 : exp 32 <= 1853020188851841.
Proof.
  pose proof exp_le_3 as H1. pose proof (exp_pos 1) as P1.
  assert (H2 : exp 2 <= 9).
  { replace 2 with (1 + 1) by ring. rewrite exp_plus.
    by_mul_bounds (exp 1) (exp 1) 0 3 0 3. }
  pose proof (exp_pos 2) as P2.
  assert (H4 : exp 4 <= 81).
  { replace 4 with (2 + 2) by ring. rewrite exp_plus.
    by_mul_bounds (exp 2) (exp 2) 0 9 0 9. }
  pose proof (exp_pos 4) as P4.
  assert (H8 : exp 8 <= 6561).
  { replace 8 with (4 + 4) by ring. rewrite exp_plus.
    by_mul_bounds (exp 4) (exp 4) 0 81 0 81. }
  pose proof (exp_pos 8) as P8.
  assert (H16 : exp 16 <= 43046721).
  { replace 16 with (8 + 8) by ring. rewrite exp_plus.
    by_mul_bounds (exp 8) (exp 8) 0 6561 0 6561. }
  pose proof (exp_pos 16) as P16.
  replace 32 with (16 + 16) by ring. rewrite exp_plus.
  by_mul_bounds (exp 16) (exp 16) 0 43046721 0 43046721.
Qed.

Lemma exp_neg_range y : 0 <= y <= 32 -> 1e-16 <= exp (- y) <= 1.
Proof.
  intros Hy. split.
  - rewrite exp_Ropp.
    assert (exp y <= exp 32).
    { destruct (Req_dec y 32) as [->|]; [ lra | ].
      left. apply exp_increasing. lra. }
    pose proof exp_32. pose proof (exp_pos y).
    apply Rle_trans with (/ 1853020188851841); [ lra | ].
    apply Rinv_le_contravar; lra.
  - rewrite <- exp_0.
    destruct (Req_dec y 0) as [->|]; [ rewrite Ropp_0; lra | ].
    left. apply exp_increasing. lra.
Qed.

Lemma rel_of_Rabs v V e : Rabs (v - V) <= e * V -> rel v V e.
Proof. intro H. apply Rabs_le_inv in H. unfold rel. lra. Qed.

Lemma rel_mul a A ea b B eb e :
  0 < A -> 0 < B -> 0 <= ea <= 1 -> 0 <= eb <= 1 ->
  ea + eb + ea * eb <= e ->
  rel a A ea -> rel b B eb -> rel (a * b) (A * B) e.
Proof.
  unfold rel. intros HA HB Hea Heb He Ha Hb.
  assert (Hab : 0 < A * B) by (apply Rmult_lt_0_compat; assumption).
  assert (Hee : 0 <= ea * eb) by (apply Rmult_le_pos; lra).
  assert (L1 : 0 <= A * (1 - ea)) by (apply Rmult_le_pos; lra).
  assert (L2 : 0 <= B * (1 - eb)) by (apply Rmult_le_pos; lra).
  pose proof (mul_bounds a b (A * (1 - ea)) (A * (1 + ea))
                (B * (1 - eb)) (B * (1 + eb))
                ltac:(lra) ltac:(lra) ltac:(lra) ltac:(lra)) as H.
  replace (A * (1 - ea) * (B * (1 - eb)))
    with (A * B * (1 - (ea + eb - ea * eb))) in H by ring.
  replace (A * (1 + ea) * (B * (1 + eb)))
    with (A * B * (1 + (ea + eb + ea * eb))) in H by ring.
  assert (A * B * (ea + eb + ea * eb) <= A * B * e)
    by (apply Rmult_le_compat_l; lra).
  assert (0 <= A * B * (ea * eb)) by (apply Rmult_le_pos; lra).
  lra.
Qed.

Lemma rel_bounds v V e L H :
  rel v V e -> 0 <= e <= / 2 -> L <= V <= H -> 0 <= L ->
  L / 2 <= v <= 2 * H.
Proof.
  unfold rel. intros Hv He HV HL.
  pose proof (mul_bounds V (1 - e) L H (/ 2) 1
                ltac:(lra) ltac:(lra) ltac:(lra) ltac:(lra)).
  pose proof (mul_bounds V (1 + e) L H 1 2
                ltac:(lra) ltac:(lra) ltac:(lra) ltac:(lra)).
  lra.
Qed.

Section TableProduct.

Variable u : R.
Hypothesis u_range : 0 <= u <= unitRoundoff.
Variable rnd : R -> R.
Hypothesis rnd_ok : roundsWithin u rnd.

Lemma rel_rnd v V e e' :
  0 < V -> 0 <= e <= 1 -> e + u + e * u <= e' ->
  1e-300 <= v <= 1e300 -> rel v V e -> rel (rnd v) V e'.
Proof.
  intros HV He He' Hv Hr. unfold unitRoundoff in u_range.
  pose proof (rnd_pos u rnd rnd_ok v Hv) as H.
  assert (R1 : rel (v * (1 - u)) (V * 1) e').
  { apply (rel_mul v V e (1 - u) 1 u); unfold rel in *; lra. }
  assert (R2 : rel (v * (1 + u)) (V * 1) e').
  { apply (rel_mul v V e (1 + u) 1 u); unfold rel in *; lra. }
  unfold rel in *. lra.
Qed.

(** The product of three table entries, as [FastExp] forms it. *)
Lemma table_product etab t2 t3a t3b y2 y3a y3b :
  0 <= etab <= 1e-5 ->
  0 <= y2 <= 32 -> 0 <= y3a <= 32 -> 0 <= y3b <= 32 ->
  Rabs (t2 - exp (- y2)) <= etab * exp (- y2) ->
  Rabs (t3a - exp (- y3a)) <= etab * exp (- y3a) ->
  Rabs (t3b - exp (- y3b)) <= etab * exp (- y3b) ->
  Rabs (fmul rnd (fmul rnd t2 t3a) t3b - exp (- (y2 + y3a + y3b)))
  <= (4 * etab + 3 * u) * exp (- (y2 + y3a + y3b)).
Proof.
  intros Het H2 H3a H3b T2 T3a T3b. unfold unitRoundoff in u_range.
  apply rel_of_Rabs in T2, T3a, T3b.
  pose proof (exp_neg_range y2 H2) as B2.
  pose proof (exp_neg_range y3a H3a) as B3a.
  pose proof (exp_neg_range y3b H3b) as B3b.
  replace (- (y2 + y3a + y3b)) with (- y2 + - y3a + - y3b) by ring.
  rewrite !exp_plus.
  set (E2 := exp (- y2)) in *. set (E3a := exp (- y3a)) in *.
  set (E3b := exp (- y3b)) in *.
  assert (Hee : 0 <= etab * etab <= 1e-5 * etab)
    by (by_mul_bounds etab etab 0 1e-5 0 etab).
  assert (Heu : 0 <= etab * u <= 1e-5 * u)
    by (by_mul_bounds etab u 0 1e-5 0 u).
  assert (Huu : 0 <= u * u <= 1e-5 * u)
    by (by_mul_bounds u u 0 1e-5 0 u).
  assert (P1 : 1e-32 <= E2 * E3a <= 1)
    by (by_mul_bounds E2 E3a 1e-16 1 1e-16 1).
  assert (P2 : 1e-48 <= E2 * E3a * E3b <= 1)
    by (by_mul_bounds (E2 * E3a) E3b 1e-32 1 1e-16 1).
  assert (M1 : rel (t2 * t3a) (E2 * E3a) (2.0001 * etab)).
  { apply (rel_mul t2 E2 etab t3a E3a etab); try assumption; lra. }
  pose proof (rel_bounds _ _ _ 1e-32 1 M1 ltac:(lra) P1 ltac:(lra)) as N1.
  assert (R1 : rel (fmul rnd t2 t3a) (E2 * E3a) (2.001 * etab + 1.001 * u)).
  { unfold fmul.
    apply (rel_rnd (t2 * t3a) (E2 * E3a) (2.0001 * etab)); try lra.
    exact M1. }
  assert (M2 : rel (fmul rnd t2 t3a * t3b) (E2 * E3a * E3b)
                 (3.01 * etab + 1.01 * u)).
  { apply (rel_mul (fmul rnd t2 t3a) (E2 * E3a) (2.001 * etab + 1.001 * u)
             t3b E3b etab); try assumption; lra. }
  pose proof (rel_bounds _ _ _ 1e-48 1 M2 ltac:(lra) P2 ltac:(lra)) as N2.
  assert (R2 : rel (fmul rnd (fmul rnd t2 t3a) t3b) (E2 * E3a * E3b)
                 (4 * etab + 3 * u)).
  { unfold fmul at 1.
    apply (rel_rnd (fmul rnd t2 t3a * t3b) (E2 * E3a * E3b)
             (3.01 * etab + 1.01 * u)); try lra; exact M2. }
  unfold rel in R2. apply Rabs_le. lra.
Qed.

End TableProduct.

(* ================================================================== *)
(** * Bit fields of a float                                          *)
(* ================================================================== *)

Local Open Scope Z_scope.

Lemma bitfield (m off w : Z) :
  0 <= off -> 0 <= w ->
  Z.shiftr (Z.land m (Z.shiftl (Z.ones w) off)) off = (m / 2 ^ off) mod 2 ^ w.
Proof.
  intros Hoff Hw.
  rewrite Z.shiftr_land, Z.shiftr_shiftl_l by lia.
  rewrite Z.sub_diag, Z.shiftl_0_r, Z.land_ones, Z.shiftr_div_pow2 by lia.
  reflexivity.
Qed.

Lemma biasedExp_eq m : F32.biasedExp m = (m / 2 ^ 23) mod 2 ^ 8.
Proof. exact (bitfield m 23 8 ltac:(lia) ltac:(lia)). Qed.

Lemma mantBits_eq m : F32.mantBits m = m mod 2 ^ 23.
Proof. exact (Z.land_ones m 23 ltac:(lia)). Qed.

Lemma low31_eq m : Z.land m 0x7fffffff = m mod 2 ^ 31.
Proof. exact (Z.land_ones m 31 ltac:(lia)). Qed.

Lemma low31_split m :
  m mod 2 ^ 31 = F32.biasedExp m * 2 ^ 23 + F32.mantBits m.
Proof.
  rewrite biasedExp_eq, mantBits_eq.
  change (2 ^ 31) with (2 ^ 23 * 2 ^ 8).
  rewrite Z.rem_mul_r by lia. lia.
Qed.

Lemma j0_eq m :
  Z.shiftr (Z.land m mantMask0) mantOffset0 = (m / 2 ^ 16) mod 2 ^ 7.
Proof. exact (bitfield m 16 7 ltac:(lia) ltac:(lia)). Qed.
Lemma j1_eq m :
  Z.shiftr (Z.land m mantMask1) mantOffset1 = (m / 2 ^ 8) mod 2 ^ 8.
Proof. exact (bitfield m 8 8 ltac:(lia) ltac:(lia)). Qed.
Lemma j2_eq m : Z.shiftr (Z.land m mantMask2) mantOffset2 = m mod 2 ^ 8.
Proof.
  unfold mantOffset2. rewrite Z.shiftr_0_r.
  exact (Z.land_ones m 8 ltac:(lia)).
Qed.

Lemma mantBits_split m :
  F32.mantBits m =
  Z.shiftr (Z.land m mantMask0) mantOffset0 * 2 ^ 16
  + Z.shiftr (Z.land m mantMask1) mantOffset1 * 2 ^ 8
  + Z.shiftr (Z.land m mantMask2) mantOffset2.
Proof.
  rewrite mantBits_eq, j0_eq, j1_eq, j2_eq.
  change (2 ^ 23) with (2 ^ 8 * (2 ^ 8 * 2 ^ 7)).
  rewrite Z.rem_mul_r by lia.
  rewrite Z.rem_mul_r by lia.
  rewrite Z.div_div by lia. change (2 ^ 8 * 2 ^ 8) with (2 ^ 16). lia.
Qed.

Local Open Scope R_scope.

Lemma pow2_ge1 (k : Z) : (0 <= k)%Z -> 1 <= powerRZ 2 k.
Proof.
  intro Hk. rewrite <- (Z2Nat.id k Hk), <- pow_powerRZ.
  apply pow_R1_Rle. lra.
Qed.

Lemma pow2_le (a b : Z) : (a <= b)%Z -> powerRZ 2 a <= powerRZ 2 b.
Proof.
  intro Hab. replace b with (a + (b - a))%Z by lia.
  rewrite powerRZ_add by lra.
  pose proof (pow2_ge1 (b - a) ltac:(lia)).
  pose proof (powerRZ_lt 2 a ltac:(lra)). nra.
Qed.

Lemma pow2_m149 :
  powerRZ 2 (-149) = / 713623846352979940529142984724747568191373312.
Proof. simpl. lra. Qed.

Lemma pow2_m29 : powerRZ 2 (-29) = / 536870912.
Proof. simpl. lra. Qed.

(** A pattern that is neither negative nor zero nor has the all-ones
    exponent is a positive finite float. *)
Lemma positive_pattern m :
  F32.lt0 m = false -> F32.eq0 m = false -> F32.biasedExp m <> 255%Z ->
  F32.signBit m = false /\ F32.F2R m = F32.magnitude m /\
  (F32.biasedExp m = 0%Z -> 1 <= F32.mantBits m)%Z.
Proof.
  intros Hlt Heq He.
  assert (Hs : F32.signBit m = false).
  { unfold F32.lt0, F32.isNaN in Hlt. unfold F32.eq0 in Heq.
    apply Z.eqb_neq in He. rewrite He, Heq in Hlt.
    destruct (F32.signBit m); [ discriminate Hlt | reflexivity ]. }
  unfold F32.F2R. rewrite Hs. repeat split.
  intro H0. unfold F32.eq0, F32.isZero in Heq. apply Z.eqb_neq in Heq.
  rewrite low31_eq, low31_split, H0 in Heq.
  pose proof (Z.mod_pos_bound m (2 ^ 23) ltac:(lia)) as Hb.
  rewrite <- mantBits_eq in Hb. lia.
Qed.

Lemma mantBits_range m : (0 <= F32.mantBits m < 2 ^ 23)%Z.
Proof. rewrite mantBits_eq. apply Z.mod_pos_bound. lia. Qed.

Lemma biasedExp_range m : (0 <= F32.biasedExp m < 256)%Z.
Proof. rewrite biasedExp_eq. apply Z.mod_pos_bound. lia. Qed.

Lemma magnitude_lower m :
  (F32.biasedExp m = 0%Z -> 1 <= F32.mantBits m)%Z ->
  powerRZ 2 (-149) <= F32.magnitude m.
Proof.
  intro Hsub. unfold F32.magnitude.
  pose proof (mantBits_range m) as Hm. pose proof (biasedExp_range m) as He.
  destruct (Z.eqb_spec (F32.biasedExp m) 0) as [E|E].
  - specialize (Hsub E). apply IZR_le in Hsub.
    pose proof (powerRZ_lt 2 (-149) ltac:(lra)). nra.
  - pose proof (pow2_le (-149) (F32.biasedExp m - 150) ltac:(lia)).
    pose proof (powerRZ_lt 2 (-149) ltac:(lra)).
    assert (1 <= IZR (2 ^ 23 + F32.mantBits m)) by (apply IZR_le; lia).
    nra.
Qed.

Lemma magnitude_upper m (e : Z) :
  (F32.biasedExp m <= e)%Z -> (1 <= e)%Z ->
  F32.magnitude m < powerRZ 2 (e - 126).
Proof.
  intros Hle He1. unfold F32.magnitude.
  pose proof (mantBits_range m) as Hm. pose proof (biasedExp_range m) as He.
  assert (Hs : powerRZ 2 (e - 126) = IZR (2 ^ 24) * powerRZ 2 (e - 150)).
  { replace (e - 126)%Z with (24 + (e - 150))%Z by lia.
    rewrite powerRZ_add by lra. f_equal. simpl. lra. }
  rewrite Hs.
  destruct (Z.eqb_spec (F32.biasedExp m) 0) as [E|E].
  - pose proof (pow2_le (-149) (e - 150) ltac:(lia)).
    pose proof (powerRZ_lt 2 (-149) ltac:(lra)).
    assert (IZR (F32.mantBits m) < IZR (2 ^ 24)) by (apply IZR_lt; lia).
    assert (0 <= IZR (F32.mantBits m)) by (apply IZR_le; lia).
    nra.
  - pose proof (pow2_le (F32.biasedExp m - 150) (e - 150) ltac:(lia)).
    pose proof (powerRZ_lt 2 (F32.biasedExp m - 150) ltac:(lra)).
    assert (IZR (2 ^ 23 + F32.mantBits m) < IZR (2 ^ 24))
      by (apply IZR_lt; lia).
    assert (0 < IZR (2 ^ 23 + F32.mantBits m)) by (apply IZR_lt; lia).
    nra.
Qed.

(** The Taylor branch is entered exactly on positive floats below 2^-5. *)
Lemma taylor_region m :
  F32.lt0 m = false -> F32.eq0 m = false -> (expIndex m < 0)%Z ->
  1e-46 <= F32.F2R m < / 32.
Proof.
  intros Hlt Heq Hl. unfold expIndex, exponentOffset in Hl.
  fold (F32.biasedExp m) in Hl.
  destruct (positive_pattern m Hlt Heq ltac:(lia)) as (_ & -> & Hsub).
  pose proof (magnitude_lower m Hsub) as Hlo.
  pose proof (magnitude_upper m 121 ltac:(lia) ltac:(lia)) as Hhi.
  rewrite pow2_m149 in Hlo. change (121 - 126)%Z with (-5)%Z in Hhi.
  simpl in Hhi. lra.
Qed.

Lemma pow2_4 : powerRZ 2 4 = 16.
Proof. simpl. lra. Qed.

Lemma pow2_23 : powerRZ 2 23 = 8388608.
Proof. simpl. lra. Qed.

(** In the table branch the argument is the sum of the three table
    arguments selected by its bit fields. *)
Lemma table_region m :
  F32.lt0 m = false -> F32.eq0 m = false ->
  (0 <= expIndex m < numExponentsUsed)%Z ->
  let l := expIndex m in
  let j0 := Z.shiftr (Z.land m mantMask0) mantOffset0 in
  let j1 := Z.shiftr (Z.land m mantMask1) mantOffset1 in
  let j2 := Z.shiftr (Z.land m mantMask2) mantOffset2 in
  (0 <= j0 < 128)%Z /\ (0 <= j1 < 256)%Z /\ (0 <= j2 < 256)%Z /\
  F32.F2R m = tableArg2D j0 l + tableArg3D j1 0 l + tableArg3D j2 1 l /\
  0 <= tableArg2D j0 l <= 32 /\ 0 <= tableArg3D j1 0 l <= 32 /\
  0 <= tableArg3D j2 1 l <= 32.
Proof.
  intros Hlt Heq Hl l j0 j1 j2.
  assert (Hbe : F32.biasedExp m = (l + 122)%Z).
  { unfold l, expIndex, exponentOffset. fold (F32.biasedExp m). lia. }
  unfold numExponentsUsed in Hl. fold l in Hl.
  assert (R0 : (0 <= j0 < 128)%Z).
  { unfold j0. rewrite j0_eq. apply Z.mod_pos_bound. lia. }
  assert (R1 : (0 <= j1 < 256)%Z).
  { unfold j1. rewrite j1_eq. apply Z.mod_pos_bound. lia. }
  assert (R2 : (0 <= j2 < 256)%Z).
  { unfold j2. rewrite j2_eq. apply Z.mod_pos_bound. lia. }
  assert (HF : F32.F2R m
               = IZR (2 ^ 23 + (j0 * 2 ^ 16 + j1 * 2 ^ 8 + j2))
                 * powerRZ 2 (l - 28)).
  { destruct (positive_pattern m Hlt Heq ltac:(lia)) as (_ & -> & _).
    unfold F32.magnitude.
    destruct (Z.eqb_spec (F32.biasedExp m) 0) as [E|_]; [ lia | ].
    rewrite Hbe, (mantBits_split m). fold j0 j1 j2.
    replace (l + 122 - 150)%Z with (l - 28)%Z by lia. reflexivity. }
  clearbody l j0 j1 j2. clear Hlt Heq Hbe.
  assert (Hp : powerRZ 2 (l - 5) = 8388608 * powerRZ 2 (l - 28)).
  { replace (l - 5)%Z with (23 + (l - 28))%Z by lia.
    rewrite powerRZ_add by lra. rewrite pow2_23. reflexivity. }
  assert (Hq : 0 < powerRZ 2 (l - 5) <= 16).
  { split; [ apply powerRZ_lt; lra | ].
    rewrite <- pow2_4. apply pow2_le. lia. }
  assert (I0 : 0 <= IZR j0 <= 127) by (split; apply IZR_le; lia).
  assert (I1 : 0 <= IZR j1 <= 255) by (split; apply IZR_le; lia).
  assert (I2 : 0 <= IZR j2 <= 255) by (split; apply IZR_le; lia).
  unfold tableArg2D, tableArg3D.
  change (0 =? 0)%Z with true. change (1 =? 0)%Z with false. cbv iota.
  split; [ exact R0 | ]. split; [ exact R1 | ]. split; [ exact R2 | ].
  split.
  { rewrite HF, Hp. rewrite !plus_IZR, !mult_IZR.
    change (IZR (2 ^ 23)) with 8388608. change (IZR (2 ^ 16)) with 65536.
    change (IZR (2 ^ 8)) with 256. field. }
  set (p := powerRZ 2 (l - 5)) in *.
  pose proof (mul_bounds p (1 + IZR j0 / 128) 0 16 0 2
                ltac:(lra) ltac:(lra) ltac:(lra) ltac:(lra)).
  pose proof (mul_bounds p (IZR j1 / 32768) 0 16 0 1
                ltac:(lra) ltac:(lra) ltac:(lra) ltac:(lra)).
  pose proof (mul_bounds p (IZR j2 / 8388608) 0 16 0 1
                ltac:(lra) ltac:(lra) ltac:(lra) ltac:(lra)).
  lra.
Qed.

Lemma land_fneg m mask :
  Z.land (- 2 ^ 31) mask = 0%Z -> Z.land (F32.fneg m) mask = Z.land m mask.
Proof.
  intro H. unfold F32.fneg. apply Z.bits_inj'. intros n Hn.
  assert (Hb : Z.testbit (Z.land (- 2 ^ 31) mask) n = false)
    by (rewrite H; apply Z.bits_0).
  rewrite Z.land_spec in Hb. rewrite !Z.land_spec, Z.lxor_spec.
  generalize dependent (Z.testbit (- 2 ^ 31) n).
  generalize (Z.testbit m n) (Z.testbit mask n).
  intros [|] [|] [|]; cbn; congruence.
Qed.

Lemma biasedExp_fneg m : F32.biasedExp (F32.fneg m) = F32.biasedExp m.
Proof. unfold F32.biasedExp. rewrite land_fneg; reflexivity. Qed.

Lemma mantBits_fneg m : F32.mantBits (F32.fneg m) = F32.mantBits m.
Proof. unfold F32.mantBits. rewrite land_fneg; reflexivity. Qed.

Lemma signBit_fneg m : F32.signBit (F32.fneg m) = negb (F32.signBit m).
Proof.
  unfold F32.signBit, F32.fneg.
  pose proof (Z.lxor_nonneg m (- 2 ^ 31)) as H.
  destruct (Z.ltb_spec (Z.lxor m (- 2 ^ 31)) 0), (Z.ltb_spec m 0);
    simpl; try reflexivity; lia.
Qed.

Lemma promote_fneg m : promote (F32.fneg m) = dopp (promote m).
Proof.
  unfold promote, F32.isNaN, F32.isInf, F32.F2R, F32.magnitude.
  rewrite biasedExp_fneg, mantBits_fneg, signBit_fneg.
  destruct (F32.biasedExp m =? 255)%Z, (F32.mantBits m =? 0)%Z;
    cbn [andb negb dopp]; try reflexivity;
    destruct (F32.signBit m); cbn [negb]; f_equal; ring.
Qed.

(* ================================================================== *)
(** * Properties of FastExp                                          *)
(* ================================================================== *)

Section FastExpProperties.

Variable u : R.
Hypothesis u_range : 0 <= u <= unitRoundoff.
Variable rnd : R -> R.
Hypothesis rnd_ok : roundsWithin u rnd.
Variable c_exp : double -> double.
Variable oneOver_i : nat -> R.
Hypothesis oneOver_ok : reciprocalsWithin u oneOver_i.
Variable etab : R.
Hypothesis etab_range : 0 <= etab <= 1e-5.
Variable EXP_TABLE_2D : Z -> Z -> R.
Variable EXP_TABLE_3D : Z -> Z -> Z -> R.
Hypothesis tables_ok : tablesWithin etab EXP_TABLE_2D EXP_TABLE_3D.

Local Abbreviation FastExp' :=
  (FastExp rnd c_exp oneOver_i EXP_TABLE_2D EXP_TABLE_3D).

Lemma FastExp_taylor_branch m :
  F32.lt0 m = false -> F32.eq0 m = false -> (expIndex m < 0)%Z ->
  FastExp' m
  = DFin (taylorLoop rnd oneOver_i FAST_EXP_MAX_TAYLOR (F32.F2R m) 1).
Proof.
  intros Hlt Heq Hl. unfold FastExp. rewrite Hlt, Heq.
  apply Z.ltb_lt in Hl. cbv zeta. rewrite Hl. reflexivity.
Qed.

Lemma FastExp_zero_branch m :
  F32.lt0 m = false -> F32.eq0 m = false ->
  (expIndex m >= numExponentsUsed)%Z ->
  FastExp' m = DFin 0.
Proof.
  intros Hlt Heq Hl. unfold FastExp. rewrite Hlt, Heq. cbv zeta.
  unfold numExponentsUsed in *.
  destruct (Z.ltb_spec (expIndex m) 0); [ lia | ].
  destruct (Z.geb_spec (expIndex m) 10); [ reflexivity | lia ].
Qed.

Lemma FastExp_table_branch m :
  F32.lt0 m = false -> F32.eq0 m = false ->
  (0 <= expIndex m < numExponentsUsed)%Z ->
  FastExp' m
  = DFin (fmul rnd
            (fmul rnd
               (EXP_TABLE_2D
                  (Z.shiftr (Z.land m mantMask0) mantOffset0) (expIndex m))
               (EXP_TABLE_3D
                  (Z.shiftr (Z.land m mantMask1) mantOffset1) 0
                  (expIndex m)))
            (EXP_TABLE_3D
               (Z.shiftr (Z.land m mantMask2) mantOffset2) 1 (expIndex m))).
Proof.
  intros Hlt Heq Hl. unfold FastExp. rewrite Hlt, Heq. cbv zeta.
  unfold numExponentsUsed in *.
  destruct (Z.ltb_spec (expIndex m) 0); [ lia | ].
  destruct (Z.geb_spec (expIndex m) 10); [ lia | reflexivity ].
Qed.

Lemma table_branch_relErr m :
  F32.lt0 m = false -> F32.eq0 m = false ->
  (0 <= expIndex m < numExponentsUsed)%Z ->
  exists r, FastExp' m = DFin r /\
            relErr r (F32.F2R m) <= 4 * etab + 3 * u.
Proof.
  intros Hlt Heq Hl. rewrite (FastExp_table_branch m Hlt Heq Hl).
  eexists. split; [ reflexivity | ].
  destruct (table_region m Hlt Heq Hl)
    as (R0 & R1 & R2 & HF & B0 & B1 & B2).
  destruct (tables_ok (expIndex m) Hl) as [T2 T3].
  apply relErr_le. rewrite HF.
  apply (table_product u u_range rnd rnd_ok etab); try assumption.
  - apply T2; assumption.
  - apply T3; [ assumption | lia ].
  - apply T3; [ assumption | lia ].
Qed.

Lemma taylor_branch_relErr m :
  F32.lt0 m = false -> F32.eq0 m = false -> (expIndex m < 0)%Z ->
  exists r, FastExp' m = DFin r /\
            Rabs (r - taylorPoly FAST_EXP_MAX_TAYLOR (F32.F2R m)) <= 2 * u /\
            relErr r (F32.F2R m) < 1e-4.
Proof.
  intros Hlt Heq Hl. rewrite (FastExp_taylor_branch m Hlt Heq Hl).
  eexists. split; [ reflexivity | ].
  pose proof (taylor_region m Hlt Heq Hl) as Hx.
  pose proof (taylorLoop_error u u_range rnd rnd_ok oneOver_i oneOver_ok
                (F32.F2R m) Hx) as He.
  split; [ exact He | ].
  apply (taylor_relErr u); [ exact u_range | lra | exact He ].
Qed.

End FastExpProperties.

Lemma isPositive_inv m :
  F32.isPositive m = true ->
  F32.lt0 m = false /\ F32.eq0 m = false /\ F32.biasedExp m <> 255%Z.
Proof.
  unfold F32.isPositive, F32.lt0, F32.eq0, F32.isFinite.
  intro H. apply andb_prop in H. destruct H as [H Hf].
  apply andb_prop in H. destruct H as [Hs Hz].
  apply negb_true_iff in Hs, Hz, Hf. rewrite Hs, Hz.
  repeat split. apply Z.eqb_neq. exact Hf.
Qed.

Lemma isPositive_gt0 m : F32.isPositive m = true -> 0 < F32.F2R m.
Proof.
  intro H. destruct (isPositive_inv m H) as (Hlt & Heq & He).
  destruct (positive_pattern m Hlt Heq He) as (_ & -> & Hsub).
  pose proof (magnitude_lower m Hsub) as Hlo.
  pose proof (powerRZ_lt 2 (-149) ltac:(lra)). lra.
Qed.

Lemma exactRnd_ok : roundsWithin unitRoundoff exactRnd.
Proof.
  intros v _. unfold exactRnd, unitRoundoff.
  rewrite Rminus_diag, Rabs_R0.
  apply Rmult_le_pos; [ lra | apply Rabs_pos ].
Qed.

Lemma exactOneOver_ok : reciprocalsWithin unitRoundoff exactOneOver.
Proof.
  intros i Hi. unfold exactOneOver, unitRoundoff.
  rewrite Rminus_diag, Rabs_R0.
  apply Rmult_le_pos; [ lra | ].
  left. apply Rinv_0_lt_compat, lt_0_INR. lia.
Qed.

Lemma exactTables_ok : tablesWithin 0 exactTable2D exactTable3D.
Proof.
  intros l _. unfold exactTable2D, exactTable3D.
  split; intros; rewrite Rminus_diag, Rabs_R0; lra.
Qed.

Lemma unitRoundoff_range : 0 <= unitRoundoff <= unitRoundoff.
Proof. unfold unitRoundoff. lra. Qed.

Lemma etab0_range : 0 <= 0 <= 1e-5.
Proof. lra. Qed.

Lemma magnitude_lower_normal m :
  (1 <= F32.biasedExp m)%Z ->
  powerRZ 2 (F32.biasedExp m - 127) <= F32.magnitude m.
Proof.
  intro He. unfold F32.magnitude.
  pose proof (mantBits_range m) as Hm.
  destruct (Z.eqb_spec (F32.biasedExp m) 0) as [E|_]; [ lia | ].
  replace (F32.biasedExp m - 127)%Z
    with (23 + (F32.biasedExp m - 150))%Z by lia.
  rewrite powerRZ_add by lra. rewrite pow2_23.
  pose proof (powerRZ_lt 2 (F32.biasedExp m - 150) ltac:(lra)) as Hp.
  assert (H : 8388608 <= IZR (2 ^ 23 + F32.mantBits m)).
  { change 8388608 with (IZR (2 ^ 23)). apply IZR_le. lia. }
  apply Rmult_le_compat_r; lra.
Qed.

Lemma pow2_5 : powerRZ 2 5 = 32.
Proof. simpl. lra. Qed.

Lemma pow2_m5 : powerRZ 2 (-5) = / 32.
Proof. simpl. lra. Qed.

(** For a positive finite float the exponent index is decided by the
    value alone: it is negative exactly below 2^-5 and beyond the table
    range exactly from 32 on. *)
Lemma expIndex_thresholds (m : Z) :
  F32.isPositive m = true ->
  ((expIndex m < 0)%Z <-> F32.F2R m < / 32) /\
  ((expIndex m >= numExponentsUsed)%Z <-> 32 <= F32.F2R m).
Proof.
  intro Hp. destruct (isPositive_inv m Hp) as (Hlt & Heq & He).
  destruct (positive_pattern m Hlt Heq He) as (_ & -> & _).
  assert (Hl : expIndex m = (F32.biasedExp m - 122)%Z) by reflexivity.
  unfold numExponentsUsed. rewrite Hl.
  pose proof (biasedExp_range m) as Hr.
  split; split; intro H.
  - pose proof (magnitude_upper m 121 ltac:(lia) ltac:(lia)) as Hu.
    change (121 - 126)%Z with (-5)%Z in Hu. rewrite pow2_m5 in Hu. exact Hu.
  - destruct (Z_lt_ge_dec (F32.biasedExp m - 122) 0) as [|Hge];
      [ assumption | exfalso ].
    pose proof (magnitude_lower_normal m ltac:(lia)) as Hlo.
    pose proof (pow2_le (-5) (F32.biasedExp m - 127) ltac:(lia)) as Hm.
    rewrite pow2_m5 in Hm. lra.
  - pose proof (magnitude_lower_normal m ltac:(lia)) as Hlo.
    pose proof (pow2_le 5 (F32.biasedExp m - 127) ltac:(lia)) as Hm.
    rewrite pow2_5 in Hm. lra.
  - destruct (Z_lt_ge_dec (F32.biasedExp m - 122) 10) as [Hlt10|];
      [ exfalso | assumption ].
    destruct (Z_lt_ge_dec (F32.biasedExp m) 1) as [H0|H1].
    + pose proof (magnitude_upper m 1 ltac:(lia) ltac:(lia)) as Hu.
      pose proof (pow2_le (1 - 126) 5 ltac:(lia)) as Hm.
      rewrite pow2_5 in Hm. lra.
    + pose proof (magnitude_upper m 131 ltac:(lia) ltac:(lia)) as Hu.
      change (131 - 126)%Z with 5%Z in Hu. rewrite pow2_5 in Hu. lra.
Qed.

(** Powers of [exp (-1)], by squaring, down to [exp (-32)]. *)
Lemma exp_m32 : exp (Ropp 32) <= 2.4e-14.
Proof.
  destruct (exp_neg_taylor3 1 ltac:(lra)) as [_ H1].
  assert (E1 : exp (Ropp 1) <= 3 / 8) by lra.
  pose proof (exp_pos (Ropp 1)) as P1.
  assert (E2 : exp (Ropp 2) <= 9 / 64).
  { replace (Ropp 2) with (Ropp 1 + Ropp 1) by ring. rewrite exp_plus.
    by_mul_bounds (exp (Ropp 1)) (exp (Ropp 1)) 0 (3 / 8) 0 (3 / 8). }
  pose proof (exp_pos (Ropp 2)) as P2.
  assert (E4 : exp (Ropp 4) <= 81 / 4096).
  { replace (Ropp 4) with (Ropp 2 + Ropp 2) by ring. rewrite exp_plus.
    by_mul_bounds (exp (Ropp 2)) (exp (Ropp 2)) 0 (9 / 64) 0 (9 / 64). }
  pose proof (exp_pos (Ropp 4)) as P4.
  assert (E8 : exp (Ropp 8) <= 6561 / 16777216).
  { replace (Ropp 8) with (Ropp 4 + Ropp 4) by ring. rewrite exp_plus.
    by_mul_bounds (exp (Ropp 4)) (exp (Ropp 4)) 0 (81 / 4096) 0 (81 / 4096). }
  pose proof (exp_pos (Ropp 8)) as P8.
  assert (E16 : exp (Ropp 16) <= 43046721 / 281474976710656).
  { replace (Ropp 16) with (Ropp 8 + Ropp 8) by ring. rewrite exp_plus.
    by_mul_bounds (exp (Ropp 8)) (exp (Ropp 8)) 0 (6561 / 16777216)
                  0 (6561 / 16777216). }
  pose proof (exp_pos (Ropp 16)) as P16.
  replace (Ropp 32) with (Ropp 16 + Ropp 16) by ring. rewrite exp_plus.
  by_mul_bounds (exp (Ropp 16)) (exp (Ropp 16))
                0 (43046721 / 281474976710656)
                0 (43046721 / 281474976710656).
Qed.

Lemma exp_neg_le_m32 x : 32 <= x -> 0 < exp (- x) <= 2.4e-14.
Proof.
  intro H. split; [ apply exp_pos | ].
  apply Rle_trans with (exp (Ropp 32)); [ | exact exp_m32 ].
  destruct (Req_dec x 32) as [->|Hne]; [ lra | ].
  left. apply exp_increasing. lra.
Qed.

Section FastExpClaims.

Variable u : R.
Hypothesis u_range : 0 <= u <= unitRoundoff.
Variable rnd : R -> R.
Hypothesis rnd_ok : roundsWithin u rnd.
Variable c_exp : double -> double.
Variable oneOver_i : nat -> R.
Hypothesis oneOver_ok : reciprocalsWithin u oneOver_i.
Variable etab : R.
Hypothesis etab_range : 0 <= etab <= 1e-5.
Variable EXP_TABLE_2D : Z -> Z -> R.
Variable EXP_TABLE_3D : Z -> Z -> Z -> R.
Hypothesis tables_ok : tablesWithin etab EXP_TABLE_2D EXP_TABLE_3D.

Local Abbreviation FastExp' :=
  (FastExp rnd c_exp oneOver_i EXP_TABLE_2D EXP_TABLE_3D).

(** C3. On a negative argument [FastExp] returns the library
    exponential of the negated argument, and on a zero argument (of
    either sign) it returns 1.0; neither the tables nor the rounding
    take part. *)
Theorem FastExp_nonpositive_passthrough (m : Z) :
  (F32.lt0 m = true -> FastExp' m = c_exp (dopp (promote m))) /\
  (F32.eq0 m = true -> FastExp' m = DFin 1).
Proof.
  unfold FastExp. split; intro H.
  - rewrite H. apply f_equal, promote_fneg.
  - assert (Hn : F32.lt0 m = false).
    { unfold F32.lt0. unfold F32.eq0 in H. rewrite H.
      apply andb_false_r. }
    rewrite Hn, H. reflexivity.
Qed.

(** C4. On a positive argument whose exponent index is negative,
    [FastExp] returns the Horner evaluation, with the entries 3, 2, 1 of
    [oneOver_i], of the Taylor polynomial of degree
    [FAST_EXP_MAX_TAYLOR] = 3 of [exp (- x)]; the value is within two
    units of roundoff of that polynomial and its relative error against
    [exp (- x)] is below 1e-4. *)
Theorem FastExp_taylor_region (m : Z) :
  F32.isPositive m = true -> (expIndex m < 0)%Z ->
  let x := F32.F2R m in
  exists r : R,
    FastExp' m = DFin r /\
    r = fsub rnd 1 (fmul rnd (fmul rnd x
          (fsub rnd 1 (fmul rnd (fmul rnd x
             (fsub rnd 1 (fmul rnd (fmul rnd x 1) (oneOver_i 3))))
             (oneOver_i 2))))
          (oneOver_i 1)) /\
    Rabs (r - taylorPoly FAST_EXP_MAX_TAYLOR x) <= 2 * u /\
    relErr r x < 1e-4.
Proof.
  intros Hp Hl x. destruct (isPositive_inv m Hp) as (Hlt & Heq & _).
  destruct (taylor_branch_relErr u u_range rnd rnd_ok c_exp oneOver_i
              oneOver_ok EXP_TABLE_2D EXP_TABLE_3D m Hlt Heq Hl)
    as (r & Hr & He & Hrel).
  exists r. repeat split; try assumption.
  rewrite (FastExp_taylor_branch rnd c_exp oneOver_i EXP_TABLE_2D
             EXP_TABLE_3D m Hlt Heq Hl) in Hr.
  injection Hr as <-. reflexivity.
Qed.

(** C5 (as amended). On every positive finite argument below 32
    [FastExp] returns a finite value whose relative error against
    [exp (- x)] is below 1e-4 (Taylor and table branches); from 32 on it
    returns 0.0, which is within 2.4e-14 of [exp (- x)] in absolute
    terms but has relative error 1. *)
Theorem FastExp_relative_error_below_32 (m : Z) :
  F32.isPositive m = true ->
  let x := F32.F2R m in
  exists r : R,
    FastExp' m = DFin r /\
    (x < 32 -> relErr r x < 1e-4) /\
    (32 <= x ->
     r = 0 /\ relErr r x = 1 /\ Rabs (r - exp (- x)) <= 2.4e-14).
Proof.
  intros Hp x. destruct (isPositive_inv m Hp) as (Hlt & Heq & _).
  destruct (expIndex_thresholds m Hp) as [_ Hhi]. fold x in Hhi.
  unfold unitRoundoff in u_range.
  destruct (Z_lt_ge_dec (expIndex m) 0) as [Hl|Hl].
  - destruct (taylor_branch_relErr u u_range rnd rnd_ok c_exp oneOver_i
                oneOver_ok EXP_TABLE_2D EXP_TABLE_3D m Hlt Heq Hl)
      as (r & Hr & _ & Hrel).
    exists r. fold x in Hrel. split; [ exact Hr | ].
    split; [ intros _; exact Hrel | ].
    intro H32. apply Hhi in H32. unfold numExponentsUsed in H32. lia.
  - destruct (Z_lt_ge_dec (expIndex m) numExponentsUsed) as [Hh|Hh].
    + destruct (table_branch_relErr u u_range rnd rnd_ok c_exp oneOver_i
                  etab etab_range EXP_TABLE_2D EXP_TABLE_3D tables_ok
                  m Hlt Heq ltac:(lia)) as (r & Hr & Hrel).
      exists r. fold x in Hrel. split; [ exact Hr | ].
      split; [ intros _; lra | ].
      intro H32. apply Hhi in H32. lia.
    + exists 0. pose proof Hh as H32. apply Hhi in H32.
      split; [ apply FastExp_zero_branch; assumption | ].
      split; [ intro; lra | ].
      intros _. split; [ reflexivity | ].
      split; [ apply relErr_zero | ].
      pose proof (exp_neg_le_m32 x H32) as He.
      rewrite Rminus_0_l, Rabs_Ropp, Rabs_pos_eq by lra. lra.
Qed.

End FastExpClaims.

(** In exact arithmetic the Taylor branch is the Taylor polynomial
    itself. *)
Lemma FastExp_taylor_exact (c_exp : double -> double)
  (T2 : Z -> Z -> R) (T3 : Z -> Z -> Z -> R) (m : Z) :
  F32.isPositive m = true -> (expIndex m < 0)%Z ->
  FastExp exactRnd c_exp exactOneOver T2 T3 m
  = DFin (taylorPoly FAST_EXP_MAX_TAYLOR (F32.F2R m)).
Proof.
  intros Hp Hl. destruct (isPositive_inv m Hp) as (Hlt & Heq & _).
  assert (H0 : 0 <= 0 <= unitRoundoff) by (unfold unitRoundoff; lra).
  assert (Hr : roundsWithin 0 exactRnd).
  { intros v _. unfold exactRnd. rewrite Rminus_diag, Rabs_R0. lra. }
  assert (Ho : reciprocalsWithin 0 exactOneOver).
  { intros i _. unfold exactOneOver. rewrite Rminus_diag, Rabs_R0. lra. }
  destruct (taylor_branch_relErr 0 H0 exactRnd Hr c_exp exactOneOver Ho
              T2 T3 m Hlt Heq Hl) as (r & -> & He & _).
  f_equal. apply Rabs_le_inv in He. lra.
Qed.

Lemma FastExp_nonpositive_passthrough_witness :
  FastExp exactRnd exactExp exactOneOver exactTable2D exactTable3D
    (-1082130432)
  = exactExp (dopp (promote (-1082130432))) /\
  FastExp exactRnd exactExp exactOneOver exactTable2D exactTable3D
    (-2147483648)
  = DFin 1.
Proof.
  split.
  - apply (FastExp_nonpositive_passthrough exactRnd exactExp exactOneOver
             exactTable2D exactTable3D (-1082130432)). reflexivity.
  - apply (FastExp_nonpositive_passthrough exactRnd exactExp exactOneOver
             exactTable2D exactTable3D (-2147483648)). reflexivity.
Defined.

Lemma FastExp_taylor_region_witness :
  exists r : R,
    FastExp exactRnd exactExp exactOneOver exactTable2D exactTable3D
      1015021568 = DFin r /\
    r = fsub exactRnd 1 (fmul exactRnd (fmul exactRnd (F32.F2R 1015021568)
          (fsub exactRnd 1 (fmul exactRnd (fmul exactRnd (F32.F2R 1015021568)
             (fsub exactRnd 1
                (fmul exactRnd (fmul exactRnd (F32.F2R 1015021568) 1)
                   (exactOneOver 3))))
             (exactOneOver 2))))
          (exactOneOver 1)) /\
    Rabs (r - taylorPoly FAST_EXP_MAX_TAYLOR (F32.F2R 1015021568))
    <= 2 * unitRoundoff /\
    relErr r (F32.F2R 1015021568) < 1e-4.
Proof.
  exact (FastExp_taylor_region unitRoundoff unitRoundoff_range
           exactRnd exactRnd_ok exactExp exactOneOver exactOneOver_ok
           exactTable2D exactTable3D 1015021568 eq_refl eq_refl).
Defined.

Lemma FastExp_relative_error_below_32_witness :
  let x := F32.F2R 1078530011 in
  exists r : R,
    FastExp exactRnd exactExp exactOneOver exactTable2D exactTable3D
      1078530011 = DFin r /\
    (x < 32 -> relErr r x < 1e-4) /\
    (32 <= x ->
     r = 0 /\ relErr r x = 1 /\ Rabs (r - exp (- x)) <= 2.4e-14).
Proof.
  exact (FastExp_relative_error_below_32 unitRoundoff unitRoundoff_range
           exactRnd exactRnd_ok exactExp exactOneOver exactOneOver_ok
           0 etab0_range exactTable2D exactTable3D exactTables_ok
           1078530011 eq_refl).
Defined.

(** C5 (as stated) fails from 32 on.  At the float 32.0 (pattern
    0x42000000), whatever the rounding, the library exponential and the
    tables, [FastExp] returns 0.0; its relative error against
    [exp (- 32)] is exactly 1, so it agrees with the exponential within
    no relative tolerance below 1: the result carries no correct
    digit. *)
Lemma FastExp_no_relative_agreement_at_32 :
  F32.isPositive 1107296256 = true /\
  F32.F2R 1107296256 = 32 /\
  (forall (rnd : R -> R) (c_exp : double -> double) (oneOver_i : nat -> R)
          (T2 : Z -> Z -> R) (T3 : Z -> Z -> Z -> R),
     FastExp rnd c_exp oneOver_i T2 T3 1107296256 = DFin 0) /\
  relErr 0 (F32.F2R 1107296256) = 1 /\
  (forall tol : R, tol < 1 -> ~ relErr 0 (F32.F2R 1107296256) <= tol) /\
  0 < exp (- F32.F2R 1107296256).
Proof.
  split; [ reflexivity | ].
  split.
  { unfold F32.F2R, F32.magnitude.
    change (F32.signBit 1107296256) with false.
    change (F32.biasedExp 1107296256) with 132%Z.
    change (F32.mantBits 1107296256) with 0%Z.
    cbn [Z.eqb Z.sub Z.add Z.opp Z.pos_sub Pos.pred_double Z.succ_double
         Z.pred_double Z.double Pos.eqb].
    change (132 - 150)%Z with (-18)%Z. change (2 ^ 23 + 0)%Z with 8388608%Z.
    replace (powerRZ 2 (-18)) with (/ 262144); [ lra | ].
    unfold powerRZ. change (Pos.to_nat 18) with 18%nat.
    apply f_equal. cbn [pow]. lra. }
  split.
  { intros. reflexivity. }
  split; [ apply relErr_zero | ].
  split; [ intros tol Ht; rewrite relErr_zero; lra | apply exp_pos ].
Qed.

(* ================================================================== *)
(** * Properties of the source functions                             *)
(* ================================================================== *)

(** ** Double arithmetic under the rounding model *)

Lemma exactFl_ok : roundsToDouble unitRoundoff exactFl.
Proof.
  unfold roundsToDouble, exactFl. split; [ reflexivity | ].
  split; [ intros x y H; exact H | ].
  intros v _. exists v. split; [ reflexivity | ].
  rewrite Rminus_diag, Rabs_R0.
  apply Rmult_le_pos; [ unfold unitRoundoff; lra | apply Rabs_pos ].
Qed.

Lemma unitRoundoff_lt_1 : 0 <= unitRoundoff < 1.
Proof. unfold unitRoundoff. lra. Qed.

Lemma Reqb_nonzero (x : R) : x <> 0 -> Reqb x 0 = false.
Proof.
  intro H. unfold Reqb. destruct (Req_dec_T x 0); [ contradiction | ].
  reflexivity.
Qed.

Lemma Rltb_nonneg (x : R) : 0 <= x -> Rltb x 0 = false.
Proof.
  intro H. unfold Rltb. destruct (Rlt_dec x 0); [ lra | reflexivity ].
Qed.

(** What lies at or below zero: minus infinity or a finite value that is
    not positive; and symmetrically above. *)
Lemma dle_zero_inv (d : double) :
  dle d (DFin 0) -> d = DInf true \/ exists t : R, d = DFin t /\ t <= 0.
Proof.
  destruct d as [ | [ | ] | t ]; cbn; intro H; try contradiction.
  - left. reflexivity.
  - right. exists t. split; [ reflexivity | exact H ].
Qed.

Lemma zero_dle_inv (d : double) :
  dle (DFin 0) d -> d = DInf false \/ exists t : R, d = DFin t /\ 0 <= t.
Proof.
  destruct d as [ | [ | ] | t ]; cbn; intro H; try contradiction.
  - left. reflexivity.
  - right. exists t. split; [ reflexivity | exact H ].
Qed.

Section Rounding.

Variable u : R.
Variable fl : R -> double.
Hypothesis fl_ok : roundsToDouble u fl.

Lemma fl_nonpos (x : R) : x <= 0 -> dle (fl x) (DFin 0).
Proof.
  intro H. destruct fl_ok as (H0 & Hm & _).
  rewrite <- H0. apply Hm, H.
Qed.

Lemma fl_nonneg (x : R) : 0 <= x -> dle (DFin 0) (fl x).
Proof.
  intro H. destruct fl_ok as (H0 & Hm & _).
  rewrite <- H0. apply Hm, H.
Qed.

(** Inside the normal range a rounded result keeps its sign. *)
Lemma fl_negative (v : R) :
  0 <= u < 1 -> v < 0 -> 1e-300 <= Rabs v <= 1e300 ->
  exists t : R, fl v = DFin t /\ t < 0.
Proof.
  intros Hu Hv Hn. destruct fl_ok as (_ & _ & Hr).
  destruct (Hr v Hn) as (t & Ht & He).
  exists t. split; [ exact Ht | ].
  rewrite (Rabs_left v Hv) in He.
  assert (Hb : u * - v < - v).
  { replace (- v) with (1 * - v) at 2 by ring.
    apply Rmult_lt_compat_r; lra. }
  apply Rabs_le_inv in He. lra.
Qed.

(** The difference of a smaller and a larger finite double is not
    positive. *)
Lemma dsub_nonpos (x y : R) :
  x <= y -> dle (dsub fl (DFin x) (DFin y)) (DFin 0).
Proof.
  intro H. unfold dsub, dadd, dopp. apply fl_nonpos. lra.
Qed.

Lemma dsub_nonneg (x y : R) :
  y <= x -> dle (DFin 0) (dsub fl (DFin x) (DFin y)).
Proof.
  intro H. unfold dsub, dadd, dopp. apply fl_nonneg. lra.
Qed.

Lemma dsub_diag (x : R) : dsub fl (DFin x) (DFin x) = DFin 0.
Proof.
  unfold dsub, dadd, dopp. destruct fl_ok as (H0 & _).
  replace (x + - x) with 0 by ring. exact H0.
Qed.

(** A positive finite factor keeps the side of zero of the other
    operand, infinities included. *)
Lemma dmul_pos_nonpos (f : R) (d : double) :
  0 < f -> dle d (DFin 0) -> dle (dmul fl (DFin f) d) (DFin 0).
Proof.
  intros Hf Hd. destruct (dle_zero_inv d Hd) as [->|(t & -> & Ht)].
  - unfold dmul. rewrite Reqb_nonzero, Rltb_nonneg by lra. exact I.
  - unfold dmul. apply fl_nonpos.
    replace (f * t) with (- (f * - t)) by ring.
    pose proof (Rmult_le_pos f (- t)). lra.
Qed.

Lemma dmul_pos_nonneg (f : R) (d : double) :
  0 < f -> dle (DFin 0) d -> dle (DFin 0) (dmul fl (DFin f) d).
Proof.
  intros Hf Hd. destruct (zero_dle_inv d Hd) as [->|(t & -> & Ht)].
  - unfold dmul. rewrite Reqb_nonzero, Rltb_nonneg by lra. exact I.
  - unfold dmul. apply fl_nonneg. apply Rmult_le_pos; lra.
Qed.

(** Adding a term that is not positive to a finite double does not
    increase it, and adding a term that is not negative does not
    decrease it. *)
Lemma dadd_nonpos (a0 : R) (t : double) :
  isDouble fl a0 -> dle t (DFin 0) ->
  dle (dadd fl (DFin a0) t) (DFin a0).
Proof.
  intros Ha Ht. destruct (dle_zero_inv t Ht) as [->|(x & -> & Hx)].
  - exact I.
  - unfold dadd. unfold isDouble in Ha. rewrite <- Ha.
    destruct fl_ok as (_ & Hm & _). apply Hm. lra.
Qed.

Lemma dadd_nonneg (a0 : R) (t : double) :
  isDouble fl a0 -> dle (DFin 0) t ->
  dle (DFin a0) (dadd fl (DFin a0) t).
Proof.
  intros Ha Ht. destruct (zero_dle_inv t Ht) as [->|(x & -> & Hx)].
  - exact I.
  - unfold dadd. unfold isDouble in Ha. rewrite <- Ha.
    destruct fl_ok as (_ & Hm & _). apply Hm. lra.
Qed.

Lemma dadd_zero (a0 : R) :
  isDouble fl a0 -> dadd fl (DFin a0) (DFin 0) = DFin a0.
Proof.
  intro Ha. unfold dadd. rewrite Rplus_0_r. exact Ha.
Qed.

End Rounding.

(** With its reads inside the arrays [sourceFunc_line] is the pair of
    its two updates. *)
Lemma sourceFunc_line_some (fl : R -> double)
  (md : molData) (vfac : R) (gm : populations)
  (lineI : Z) (acc : srcAcc) (up lo : Z) (n_up n_lo a bl bu : R) :
  rd (lau md) lineI = Some up -> rd (pops gm) up = Some n_up ->
  rd (lal md) lineI = Some lo -> rd (pops gm) lo = Some n_lo ->
  rd (aeinst md) lineI = Some a ->
  rd (beinstl md) lineI = Some bl -> rd (beinstu md) lineI = Some bu ->
  sourceFunc_line fl md vfac gm lineI acc
  = Some {| jnu := dadd fl (jnu acc)
                     (dmul fl
                        (dmul fl
                           (dmul fl
                              (dmul fl (dmul fl (DFin vfac) (fl HPIP))
                                    (DFin (binv gm)))
                              (DFin (nmol gm)))
                           (DFin n_up))
                        (DFin a));
            alpha := dadd fl (alpha acc)
                       (dmul fl
                          (dmul fl
                             (dmul fl (dmul fl (DFin vfac) (fl HPIP))
                                   (DFin (binv gm)))
                             (DFin (nmol gm)))
                          (dsub fl (dmul fl (DFin n_lo) (DFin bl))
                                   (dmul fl (DFin n_up) (DFin bu)))) |}.
Proof.
  intros Hup Hnu Hlo Hnl Ha Hbl Hbu. unfold sourceFunc_line.
  rewrite Hup; cbn [bind]. rewrite Hnu; cbn [bind]. rewrite Ha; cbn [bind].
  rewrite Hlo; cbn [bind]. rewrite Hnl; cbn [bind]. rewrite Hbl; cbn [bind].
  rewrite Hbu; cbn [bind]. reflexivity.
Qed.

(* ---------------- sourceFunc_line ------------------------------------ *)

(** C10 (as amended). With all its array reads inside the arrays,
    [sourceFunc_line] replaces [*jnu] by the double sum of [*jnu] and
    vfac*HPIP*binv*nmol*pops[upper]*A, and [*alpha] by the double sum of
    [*alpha] and
    vfac*HPIP*binv*nmol*(pops[lower]*B_lower - pops[upper]*B_upper),
    every product, difference and sum rounded to double, and returns
    nothing else.  The absorption term is not clamped: when the computed
    factor vfac*HPIP*binv*nmol is positive and the computed
    pops[upper]*B_upper exceeds the computed pops[lower]*B_lower, the term
    added to [*alpha] is never positive and a finite [*alpha] does not
    increase; the term is negative whenever the exact product of the
    factor and the computed difference lies in the normal range of the
    doubles. *)
Theorem sourceFunc_line_increments
  (u : R) (fl : R -> double)
  (md : molData) (vfac : R) (gm : populations) (lineI : Z) (acc : srcAcc)
  (up lo : Z) (n_up n_lo a bl bu : R) :
  roundsToDouble u fl -> 0 <= u < 1 ->
  rd (lau md) lineI = Some up -> rd (pops gm) up = Some n_up ->
  rd (lal md) lineI = Some lo -> rd (pops gm) lo = Some n_lo ->
  rd (aeinst md) lineI = Some a ->
  rd (beinstl md) lineI = Some bl -> rd (beinstu md) lineI = Some bu ->
  let factor :=
    dmul fl (dmul fl (dmul fl (DFin vfac) (fl HPIP)) (DFin (binv gm)))
         (DFin (nmol gm)) in
  let p_lo := dmul fl (DFin n_lo) (DFin bl) in
  let p_up := dmul fl (DFin n_up) (DFin bu) in
  let term := dmul fl factor (dsub fl p_lo p_up) in
  sourceFunc_line fl md vfac gm lineI acc
  = Some {| jnu := dadd fl (jnu acc)
                     (dmul fl (dmul fl factor (DFin n_up)) (DFin a));
            alpha := dadd fl (alpha acc) term |} /\
  (forall f x_lo x_up : R,
     factor = DFin f -> p_lo = DFin x_lo -> p_up = DFin x_up ->
     0 < f -> x_lo < x_up ->
     dle term (DFin 0) /\
     (forall a0 : R, alpha acc = DFin a0 -> isDouble fl a0 ->
        dle (dadd fl (alpha acc) term) (alpha acc)) /\
     (forall d : R, dsub fl p_lo p_up = DFin d ->
        1e-300 <= Rabs (f * d) <= 1e300 ->
        exists t : R, term = DFin t /\ t < 0)).
Proof.
  intros Hfl Hu Hup Hnu Hlo Hnl Ha Hbl Hbu factor p_lo p_up term.
  split.
  { exact (sourceFunc_line_some fl md vfac gm lineI acc up lo
             n_up n_lo a bl bu Hup Hnu Hlo Hnl Ha Hbl Hbu). }
  intros f x_lo x_up Hf Hpl Hpu Hf0 Hinv.
  assert (Hd : dle (dsub fl p_lo p_up) (DFin 0)).
  { rewrite Hpl, Hpu. apply (dsub_nonpos u fl Hfl). lra. }
  assert (Ht : dle term (DFin 0)).
  { unfold term. rewrite Hf. apply (dmul_pos_nonpos u fl Hfl); assumption. }
  split; [ exact Ht | ]. split.
  - intros a0 Ea Ha0. rewrite Ea.
    apply (dadd_nonpos u fl Hfl); assumption.
  - intros d Ed Hn. unfold term. rewrite Hf, Ed. unfold dmul.
    rewrite Ed in Hd. cbn in Hd.
    apply (fl_negative u fl Hfl); [ exact Hu | | exact Hn ].
    destruct (Req_dec d 0) as [->|Hne].
    + rewrite Rmult_0_r, Rabs_R0 in Hn. lra.
    + replace (f * d) with (- (f * - d)) by ring.
      pose proof (Rmult_lt_0_compat f (- d)). lra.
Qed.

Lemma sourceFunc_line_increments_witness :
  let factor :=
    dmul exactFl
      (dmul exactFl (dmul exactFl (DFin 1) (exactFl HPIP))
            (DFin (binv invertedGas)))
      (DFin (nmol invertedGas)) in
  let p_lo := dmul exactFl (DFin 1) (DFin 1) in
  let p_up := dmul exactFl (DFin 2) (DFin 1) in
  let term := dmul exactFl factor (dsub exactFl p_lo p_up) in
  sourceFunc_line exactFl twoLevel 1 invertedGas 0 zeroAcc
  = Some {| jnu := dadd exactFl (jnu zeroAcc)
                     (dmul exactFl (dmul exactFl factor (DFin 2))
                           (DFin 1e-5));
            alpha := dadd exactFl (alpha zeroAcc) term |} /\
  (forall f x_lo x_up : R,
     factor = DFin f -> p_lo = DFin x_lo -> p_up = DFin x_up ->
     0 < f -> x_lo < x_up ->
     dle term (DFin 0) /\
     (forall a0 : R, alpha zeroAcc = DFin a0 -> isDouble exactFl a0 ->
        dle (dadd exactFl (alpha zeroAcc) term) (alpha zeroAcc)) /\
     (forall d : R, dsub exactFl p_lo p_up = DFin d ->
        1e-300 <= Rabs (f * d) <= 1e300 ->
        exists t : R, term = DFin t /\ t < 0)).
Proof.
  exact (sourceFunc_line_increments unitRoundoff exactFl
           twoLevel 1 invertedGas 0 zeroAcc 1 0 2 1 1e-5 1 1
           exactFl_ok unitRoundoff_lt_1
           eq_refl eq_refl eq_refl eq_refl eq_refl eq_refl eq_refl).
Defined.

(** C10 (as stated) fails when the common factor is not positive: with
    [vfac] = 0 and an inverted population (pops[upper]*B_upper = 2 exceeds
    pops[lower]*B_lower = 1) the call leaves [*alpha] as it was, so its
    increment is zero, not negative.  Every operation of this call is
    exact in double arithmetic: the statement holds for every rounding
    that leaves the doubles 0, 1, 2 and -1 as they are and makes a finite
    double of the literal [HPIP]. *)
Lemma sourceFunc_line_inverted_zero_factor :
  exists acc' : srcAcc,
    (forall fl : R -> double,
       isDouble fl 0 -> isDouble fl 1 -> isDouble fl 2 ->
       isDouble fl (-1) -> (exists h : R, fl HPIP = DFin h) ->
       sourceFunc_line fl twoLevel 0 invertedGas 0 zeroAcc = Some acc') /\
    sourceFunc_line exactFl twoLevel 0 invertedGas 0 zeroAcc = Some acc' /\
    rd (pops invertedGas) 0 = Some 1 /\ rd (pops invertedGas) 1 = Some 2 /\
    rd (beinstl twoLevel) 0 = Some 1 /\ rd (beinstu twoLevel) 0 = Some 1 /\
    1 * 1 < 2 * 1 /\
    alpha acc' = alpha zeroAcc /\ alpha zeroAcc = DFin 0.
Proof.
  assert (H : forall fl : R -> double,
       isDouble fl 0 -> isDouble fl 1 -> isDouble fl 2 ->
       isDouble fl (-1) -> (exists h : R, fl HPIP = DFin h) ->
       sourceFunc_line fl twoLevel 0 invertedGas 0 zeroAcc = Some zeroAcc).
  { intros fl H0 H1 H2 Hm1 (h & Hh). unfold isDouble in *.
    rewrite (sourceFunc_line_some fl twoLevel 0 invertedGas 0 zeroAcc
               1 0 2 1 1e-5 1 1
               eq_refl eq_refl eq_refl eq_refl eq_refl eq_refl eq_refl).
    cbn [binv nmol invertedGas jnu alpha zeroAcc].
    rewrite Hh. unfold dsub, dopp. cbn [dmul dadd].
    rewrite (Rmult_0_l h), H0. cbn [dmul].
    rewrite (Rmult_0_l 1), H0. cbn [dmul].
    rewrite (Rmult_0_l 3), H0. cbn [dmul dadd].
    rewrite (Rmult_0_l 2), H0. cbn [dmul dadd].
    rewrite (Rmult_0_l 1e-5), H0. cbn [dmul dadd].
    rewrite (Rplus_0_l 0), H0.
    rewrite (Rmult_1_r 1), H1, (Rmult_1_r 2), H2. cbn [dadd].
    replace (1 + Ropp 2) with (-1) by lra. rewrite Hm1. cbn [dmul].
    rewrite (Rmult_0_l (-1)), H0. cbn [dadd].
    rewrite (Rplus_0_l 0), H0. reflexivity. }
  exists zeroAcc. split; [ exact H | ].
  split.
  { apply H; try reflexivity. exists HPIP. reflexivity. }
  repeat (split; [ reflexivity | ]).
  split; [ lra | ]. split; reflexivity.
Qed.

(* ================================================================== *)
(** * Properties of the solver                                       *)
(* ================================================================== *)

Lemma Rltb_true a b : Rltb a b = true <-> a < b.
Proof. unfold Rltb. destruct (Rlt_dec a b); split; intro; try easy. Qed.

Lemma Rltb_false a b : Rltb a b = false <-> ~ a < b.
Proof. unfold Rltb. destruct (Rlt_dec a b); split; intro; try easy. Qed.

Lemma sumR_app l1 l2 : sumR (l1 ++ l2) = sumR l1 + sumR l2.
Proof.
  unfold sumR. induction l1 as [|a l1 IH]; simpl; [ | rewrite IH ]; ring.
Qed.

Lemma sumR_scale (c : R) (l : list R) :
  sumR (map (fun v => c * v) l) = c * sumR l.
Proof.
  unfold sumR. induction l as [|a l IH]; simpl; [ | rewrite IH ]; ring.
Qed.

Lemma sumR_pos (l : list R) :
  l <> [] -> Forall (fun v => 0 < v) l -> 0 < sumR l.
Proof.
  intros Hne Hall. destruct l as [|a l]; [ congruence | ].
  clear Hne. revert a Hall. unfold sumR.
  induction l as [|b l IH]; intros a Hall; simpl.
  - inversion Hall; subst. lra.
  - inversion Hall as [|? ? Ha Hrest]; subst.
    specialize (IH b Hrest). simpl in IH. lra.
Qed.

Lemma dot_ones (n : nat) (p : list R) :
  length p = n -> dot (repeat 1 n) p = sumR p.
Proof.
  unfold dot, sumR. revert n.
  induction p as [|a p IH]; intros n Hn; destruct n; simpl in *;
    try discriminate; [ reflexivity | ].
  rewrite (IH n) by lia. ring.
Qed.

Lemma negativeEntry_false p :
  negativeEntry p = false -> Forall (fun v => 0 <= v) p.
Proof.
  unfold negativeEntry. induction p as [|a p IH]; simpl; intro H.
  - constructor.
  - apply orb_false_iff in H. destruct H as [Ha Hp].
    apply Rltb_false in Ha. constructor; [ lra | auto ].
Qed.

Lemma negativeEntry_true p :
  negativeEntry p = true <-> exists v, In v p /\ v < 0.
Proof.
  unfold negativeEntry. rewrite existsb_exists.
  split; intros (v & Hin & Hv); exists v; split; try assumption;
    apply Rltb_true; assumption.
Qed.

(** The Boltzmann weights of well-formed levels are positive. *)
Lemma boltzmann_pos md T :
  wfLevels md ->
  boltzmann md T <> [] /\ Forall (fun v => 0 < v) (boltzmann md T).
Proof.
  intros (Hne & Hlen & _ & Hg). unfold boltzmann. split.
  - destruct (gstat md) as [|g gs]; [ simpl in Hne; lia | ].
    destruct (eterm md) as [|e es]; [ discriminate | ].
    simpl. discriminate.
  - apply Forall_forall. intros v Hin. apply in_map_iff in Hin.
    destruct Hin as ([g e] & <- & Hin). apply in_combine_l in Hin.
    rewrite Forall_forall in Hg. specialize (Hg g Hin). simpl.
    apply Rmult_lt_0_compat; [ exact Hg | apply exp_pos ].
Qed.

Lemma lteOnePoint_ok md T total :
  wfLevels md -> 0 <= total ->
  Forall (fun v => 0 <= v) (lteOnePoint md T total) /\
  sumR (lteOnePoint md T total) = total.
Proof.
  intros Hwf Ht. destruct (boltzmann_pos md T Hwf) as [Hne Hpos].
  pose proof (sumR_pos _ Hne Hpos) as Hz.
  unfold lteOnePoint. set (wts := boltzmann md T) in *. split.
  - apply Forall_forall. intros v Hin. apply in_map_iff in Hin.
    destruct Hin as (wi & <- & Hin).
    rewrite Forall_forall in Hpos. specialize (Hpos wi Hin).
    apply Rmult_le_pos; [ apply Rmult_le_pos; lra | ].
    left. apply Rinv_0_lt_compat. exact Hz.
  - rewrite (map_ext _ (fun wi => (total / sumR wts) * wi))
      by (intro; unfold Rdiv; ring).
    rewrite sumR_scale. field. lra.
Qed.

Lemma Forall2_last {A B} (P : A -> B -> Prop) (l1 : list A) (l2 : list B) a b :
  length l1 = length l2 -> Forall2 P (l1 ++ [a]) (l2 ++ [b]) -> P a b.
Proof.
  revert l2. induction l1 as [|x l1 IH]; intros [|y l2] Hlen H;
    simpl in *; try discriminate.
  - inversion H; assumption.
  - inversion H; subst. apply (IH l2); [ lia | assumption ].
Qed.

Lemma rateMatrix_length n coll rad : length (rateMatrix n coll rad) = n.
Proof. unfold rateMatrix. rewrite length_map, length_seq. reflexivity. Qed.

Section SolverProperties.

Variable tol : R.
Hypothesis tol_range : 0 <= tol <= minpop.
Variable solve : list (list R) -> list R -> option (list R).
Hypothesis solve_ok : solverWithin tol solve.

(** What the solver returns sums to the total density within [tol]. *)
Lemma solved_sum n coll rad total p :
  (1 <= n)%nat ->
  solve (closeMatrix n (rateMatrix n coll rad)) (closeRhs n total) = Some p ->
  Rabs (sumR p - total) <= tol.
Proof.
  intros Hn Hs. destruct (solve_ok _ _ _ Hs) as [Hlen Hres].
  unfold closeMatrix, closeRhs in *.
  rewrite length_app, repeat_length in Hlen. simpl in Hlen.
  apply Forall2_last in Hres.
  - rewrite dot_ones in Hres by lia. exact Hres.
  - rewrite length_firstn, rateMatrix_length, repeat_length. lia.
Qed.

(** C1. Whatever path the solver takes, the level populations it
    stores are non-negative and sum to the total molecular density
    [nmol] of the record to within [minpop]. *)
Theorem stateq_populations_invariant
  (md : molData) (coll rad : nat -> nat -> R) (T : R) (gm : populations) :
  wfLevels md -> 0 <= nmol gm ->
  let gm' := fst (stateq solve md coll rad T gm) in
  Forall (fun v => 0 <= v) (pops gm') /\
  Rabs (sumR (pops gm') - nmol gm') <= minpop /\
  nmol gm' = nmol gm.
Proof.
  intros Hwf Hn. unfold stateq.
  destruct (lteOnePoint_ok md T (nmol gm) Hwf Hn) as [Lpos Lsum].
  assert (Hlte : Rabs (sumR (lteOnePoint md T (nmol gm)) - nmol gm) <= minpop).
  { rewrite Lsum, Rminus_diag, Rabs_R0. unfold minpop. lra. }
  destruct (solve _ _) as [p|] eqn:Hs; cbv zeta.
  - destruct (negativeEntry p) eqn:Hneg; cbn [fst setPops pops nmol].
    + auto.
    + split; [ apply negativeEntry_false; exact Hneg | ].
      split; [ | reflexivity ].
      destruct Hwf as (Hne & _ & Hnl & _).
      assert (Hn1 : (1 <= Z.to_nat (nlev md))%nat)
        by (rewrite Hnl, Nat2Z.id; exact Hne).
      pose proof (solved_sum _ coll rad (nmol gm) p Hn1 Hs). lra.
  - cbn [fst setPops pops nmol]. auto.
Qed.

End SolverProperties.

(** A solve that is singular, or whose solution has a negative entry, is
    rejected: [stateq] returns normally, with the LTE populations in place
    of the solution and the rejection flag set. *)
Lemma stateq_rejects_to_LTE
  (solve : list (list R) -> list R -> option (list R))
  (md : molData) (coll rad : nat -> nat -> R) (T : R) (gm : populations) :
  let n := Z.to_nat (nlev md) in
  let sol := solve (closeMatrix n (rateMatrix n coll rad))
                   (closeRhs n (nmol gm)) in
  sol = None \/ (exists p v, sol = Some p /\ In v p /\ v < 0) ->
  stateq solve md coll rad T gm
  = (setPops gm (lteOnePoint md T (nmol gm)), true).
Proof.
  intros n sol H. unfold stateq. fold n. fold sol.
  destruct H as [-> | (p & v & -> & Hin & Hv)]; [ reflexivity | ].
  assert (Hneg : negativeEntry p = true)
    by (apply negativeEntry_true; exists v; auto).
  rewrite Hneg. reflexivity.
Qed.

Lemma trialSolve_ok x0 : solverWithin 0 (trialSolve x0).
Proof.
  intros M b p. unfold trialSolve.
  destruct (Nat.eqb_spec (length x0) (length b)) as [Hl|]; [ | discriminate ].
  destruct (Nat.eqb_spec (length M) (length b)) as [Hm|]; [ | discriminate ].
  cbn [andb].
  destruct (forallb _ _) eqn:Hall; [ | discriminate ].
  intro Hp. injection Hp as <-. split; [ exact Hl | ].
  clear Hl. revert b Hm Hall.
  induction M as [|row M IH]; intros [|bi b] Hm Hall; simpl in *;
    try discriminate; constructor.
  - apply andb_prop in Hall. destruct Hall as [Hr _].
    unfold Reqb in Hr. destruct (Req_dec_T (dot row x0) bi); [ | discriminate ].
    subst. rewrite Rminus_diag, Rabs_R0. lra.
  - apply andb_prop in Hall. destruct Hall as [_ Hr].
    apply IH; [ lia | exact Hr ].
Qed.

Lemma singularSolve_ok : solverWithin 0 singularSolve.
Proof. intros M b p H. discriminate H. Qed.

Lemma twoLevel_wf : wfLevels twoLevel.
Proof.
  unfold wfLevels, twoLevel; cbn. repeat split; try lia.
  repeat constructor; lra.
Qed.

Lemma tol0_range : 0 <= 0 <= minpop.
Proof. unfold minpop. lra. Qed.

Lemma invertedGas_nmol : 0 <= nmol invertedGas.
Proof. cbn. lra. Qed.

Lemma stateq_populations_invariant_witness :
  let gm' := fst (stateq (trialSolve [3 / 2; 3 / 2]) twoLevel unitColl noRad
                    10 invertedGas) in
  Forall (fun v => 0 <= v) (pops gm') /\
  Rabs (sumR (pops gm') - nmol gm') <= minpop /\
  nmol gm' = nmol invertedGas.
Proof.
  exact (stateq_populations_invariant 0 tol0_range
           (trialSolve [3 / 2; 3 / 2]) (trialSolve_ok _)
           twoLevel unitColl noRad 10 invertedGas
           twoLevel_wf invertedGas_nmol).
Defined.

(* ================================================================== *)
(** * Properties of the sweep and of the driver                      *)
(* ================================================================== *)

Lemma nth_error_combine {A B : Type} (l1 : list A) (l2 : list B) k a b :
  nth_error l1 k = Some a -> nth_error l2 k = Some b ->
  nth_error (combine l1 l2) k = Some (a, b).
Proof.
  revert l2 k. induction l1 as [|x l1 IH]; intros [|y l2] [|k] H1 H2;
    simpl in *; try discriminate.
  - congruence.
  - apply IH; assumption.
Qed.

Lemma nth_error_seq0 n k : (k < n)%nat -> nth_error (seq 0 n) k = Some k.
Proof.
  intro H. rewrite (nth_error_nth' _ 0%nat) by (rewrite length_seq; exact H).
  rewrite seq_nth by exact H. reflexivity.
Qed.

Section DriverProperties.

Variable solve : list (list R) -> list R -> option (list R).
Variable mds : list molData.
Variable collRate : Grid.grid -> nat -> nat -> nat -> R.
Variable radRate : list R -> nat -> nat -> nat -> R.
Variable castRay : list Grid.grid -> Grid.grid -> nat -> list R.
Variable varGoal : R.
Variable policy : Z -> Z.
Variable window : nat.
Variable maxIter : nat.

Local Abbreviation updateVertex' :=
  (updateVertex solve mds collRate radRate castRay varGoal policy).
Local Abbreviation sweep' :=
  (sweep solve mds collRate radRate castRay varGoal policy).
Local Abbreviation step' :=
  (step solve mds collRate radRate castRay varGoal policy window maxIter).
Local Abbreviation run' :=
  (run solve mds collRate radRate castRay varGoal policy window maxIter).
Local Abbreviation levelPops' :=
  (levelPops solve mds collRate radRate castRay varGoal policy window
     maxIter).

(** ** The sweep *)

Lemma updateVertex_sink G v :
  Grid.sink v <> 0%Z -> updateVertex' G v = v.
Proof.
  intro H. unfold updateVertex.
  destruct (Z.eqb_spec (Grid.sink v) 0); [ contradiction | reflexivity ].
Qed.

Lemma sweep_nth G i v :
  nth_error G i = Some v ->
  nth_error (sweep' G) i = Some (updateVertex' G v).
Proof. intro H. unfold sweep. apply map_nth_error. exact H. Qed.

Lemma sweep_length G : length (sweep' G) = length G.
Proof. unfold sweep. apply length_map. Qed.

Lemma step_mesh_sink d i v :
  nth_error (mesh d) i = Some v -> Grid.sink v <> 0%Z ->
  nth_error (mesh (step' d)) i = Some v.
Proof.
  intros Hn Hs. unfold step. destruct (state d); cbn [mesh]; try assumption.
  rewrite (sweep_nth _ _ _ Hn), updateVertex_sink by assumption.
  reflexivity.
Qed.

(** C2. A vertex whose sink flag is set is the same record, with the
    same populations and the same convergence flag, after any number of
    steps of the driver; so whatever the driver changes belongs to a
    vertex that is not a sink. *)
Theorem sink_vertex_unchanged (n : nat) (G : list Grid.grid) (i : nat)
  (v : Grid.grid) :
  nth_error G i = Some v -> Grid.sink v <> 0%Z ->
  nth_error (mesh (run' n (initDriver G))) i = Some v /\
  nth_error (mesh (levelPops' G)) i = Some v /\
  forall v' : Grid.grid,
    nth_error (mesh (run' n (initDriver G))) i = Some v' ->
    Grid.mol v' = Grid.mol v /\ Grid.conv v' = Grid.conv v.
Proof.
  intros Hn Hs.
  assert (Hrun : forall k d, nth_error (mesh d) i = Some v ->
                             nth_error (mesh (run' k d)) i = Some v).
  { induction k as [|k IH]; intros d Hd; simpl; [ exact Hd | ].
    apply IH, step_mesh_sink; assumption. }
  split; [ apply Hrun; exact Hn | ].
  split; [ apply Hrun; exact Hn | ].
  intros v' Hv'. rewrite (Hrun n (initDriver G) Hn) in Hv'.
  injection Hv' as <-. split; reflexivity.
Qed.

(** ** Rejected solves *)


End DriverProperties.

Lemma sinkVertex_sink : Grid.sink sinkVertex <> 0%Z.
Proof. discriminate. Qed.

Lemma twoPointMesh_budgets :
  Forall (fun g => (Grid.nphot g <= max_phot)%Z) twoPointMesh.
Proof. repeat constructor; discriminate. Qed.

Lemma sink_vertex_unchanged_witness :
  nth_error
    (mesh (run singularSolve [twoLevel] noColl jbarRad unitRay 1 tenMore
             2 16 3 (initDriver twoPointMesh))) 0
  = Some sinkVertex /\
  nth_error
    (mesh (levelPops singularSolve [twoLevel] noColl jbarRad unitRay 1
             tenMore 2 16 twoPointMesh)) 0
  = Some sinkVertex /\
  forall v' : Grid.grid,
    nth_error
      (mesh (run singularSolve [twoLevel] noColl jbarRad unitRay 1 tenMore
               2 16 3 (initDriver twoPointMesh))) 0
    = Some v' ->
    Grid.mol v' = Grid.mol sinkVertex /\ Grid.conv v' = Grid.conv sinkVertex.
Proof.
  exact (sink_vertex_unchanged singularSolve [twoLevel] noColl jbarRad
           unitRay 1 tenMore 2 16 3 twoPointMesh 0 sinkVertex
           eq_refl sinkVertex_sink).
Defined.


Section DriverMachine.

Variable solve : list (list R) -> list R -> option (list R).
Variable mds : list molData.
Variable collRate : Grid.grid -> nat -> nat -> nat -> R.
Variable radRate : list R -> nat -> nat -> nat -> R.
Variable castRay : list Grid.grid -> Grid.grid -> nat -> list R.
Variable varGoal : R.
Variable policy : Z -> Z.
Variable window : nat.
Variable maxIter : nat.

Local Abbreviation updateVertex' :=
  (updateVertex solve mds collRate radRate castRay varGoal policy).
Local Abbreviation sweep' :=
  (sweep solve mds collRate radRate castRay varGoal policy).
Local Abbreviation sweeps' :=
  (sweeps solve mds collRate radRate castRay varGoal policy).
Local Abbreviation stableRunAt' :=
  (stableRunAt solve mds collRate radRate castRay varGoal policy).
Local Abbreviation step' :=
  (step solve mds collRate radRate castRay varGoal policy window maxIter).
Local Abbreviation run' :=
  (run solve mds collRate radRate castRay varGoal policy window maxIter).
Local Abbreviation levelPops' :=
  (levelPops solve mds collRate radRate castRay varGoal policy window
     maxIter).

Lemma step_allowed d : allowed (state d) (state (step' d)) = true.
Proof.
  unfold step. destruct (state d) eqn:E; cbn [state]; try rewrite E;
    try reflexivity.
  destruct (Nat.leb window _); [ reflexivity | ].
  destruct (Nat.leb maxIter _); reflexivity.
Qed.

Lemma step_terminal d : terminal (state d) = true -> step' d = d.
Proof. unfold step. destruct (state d); simpl; congruence. Qed.

Lemma step_not_terminal d : terminal (state d) = false -> step' d <> d.
Proof.
  unfold step. destruct (state d) eqn:E; simpl; try discriminate;
    intros _ H.
  - apply (f_equal state) in H. simpl in H. congruence.
  - apply (f_equal nItersDone) in H. simpl in H. lia.
Qed.

Lemma run_terminal n d : terminal (state d) = true -> run' n d = d.
Proof.
  induction n as [|n IH]; intro H; simpl; [ reflexivity | ].
  rewrite (step_terminal d H). apply IH, H.
Qed.

Lemma run_snoc n d : run' (S n) d = step' (run' n d).
Proof.
  revert d. induction n as [|n IH]; intro d; [ reflexivity | ].
  change (run' (S (S n)) d) with (run' (S n) (step' d)).
  rewrite IH. reflexivity.
Qed.

Lemma step_not_unconverged d : state (step' d) <> UNCONVERGED.
Proof.
  pose proof (step_allowed d) as H.
  destruct (state d), (state (step' d)); simpl in H; congruence.
Qed.

(** While the machine iterates, its counters are those of the sweeps
    made so far. *)
Lemma run_iterating G n :
  state (run' (S n) (initDriver G)) = ITERATING ->
  nItersDone (run' (S n) (initDriver G)) = n /\
  stableRun (run' (S n) (initDriver G)) = stableRunAt' G n /\
  mesh (run' (S n) (initDriver G)) = sweeps' n G /\
  (1 <= n -> n < maxIter)%nat.
Proof.
  induction n as [|n IH].
  - intros _. simpl. repeat split; lia.
  - rewrite run_snoc. set (d := run' (S n) (initDriver G)) in *.
    intro Hs.
    assert (Hd : state d = ITERATING).
    { pose proof (step_allowed d) as Ha. rewrite Hs in Ha.
      destruct (state d) eqn:E; simpl in Ha; try discriminate;
        [ | reflexivity ].
      unfold d in E. rewrite run_snoc in E.
      exfalso. exact (step_not_unconverged _ E). }
    destruct (IH Hd) as (Hi & Hr & Hm & _).
    unfold step in *. rewrite Hd in *.
    cbn [state nItersDone stableRun mesh] in *.
    rewrite Hi, Hr, Hm in *. cbn [stableRunAt sweeps].
    repeat split; try reflexivity.
    intros _.
    destruct (Nat.leb window _); [ discriminate | ].
    destruct (Nat.leb_spec maxIter (S n)); [ discriminate | lia ].
Qed.

Lemma stableRunAt_window G n w :
  (w <= stableRunAt' G n)%nat ->
  forall j, (n - w <= j < n)%nat ->
    exceedsGoal (sweeps' j G) (sweeps' (S j) G) = true.
Proof.
  revert w. induction n as [|n IH]; intros w Hw j Hj; [ lia | ].
  cbn [stableRunAt] in Hw.
  destruct (exceedsGoal (sweeps' n G) (sweeps' (S n) G)) eqn:E.
  - destruct (Nat.eq_dec j n) as [->|Hne]; [ exact E | ].
    apply (IH (w - 1)%nat); lia.
  - assert (w = 0%nat) by lia. lia.
Qed.

Lemma levelPops_terminal G : terminal (state (levelPops' G)) = true.
Proof.
  unfold levelPops. change (2 + maxIter)%nat with (S (S maxIter)).
  destruct (state (run' (S (S maxIter)) (initDriver G))) eqn:E;
    try reflexivity; exfalso.
  - rewrite run_snoc in E. exact (step_not_unconverged _ E).
  - destruct (run_iterating G (S maxIter) E) as (_ & _ & _ & H). lia.
Qed.


End DriverMachine.

(* ================================================================== *)
(** * Properties of the photon budget                                *)
(* ================================================================== *)

Lemma photonLoop_rays varGoal budget ray e :
  (nrays e <= nrays (photonLoop varGoal budget ray e) <= nrays e + budget)%nat
  /\ ((nrays (photonLoop varGoal budget ray e) < nrays e + budget)%nat ->
      varianceBelowGoal varGoal (photonLoop varGoal budget ray e) = true).
Proof.
  revert e. induction budget as [|b IH]; intro e; simpl.
  - split; lia.
  - destruct (varianceBelowGoal varGoal e) eqn:E.
    + split; [ lia | intros _; exact E ].
    + destruct (IH (addSample e (ray (nrays e)))) as [Hb Hs].
      cbn [nrays addSample] in Hb, Hs.
      split; [ lia | intro H; apply Hs; lia ].
Qed.

Lemma adaptBudget_bounds policy conv nphot :
  (nphot <= max_phot)%Z ->
  (nphot <= adaptBudget policy conv nphot <= max_phot)%Z /\
  (conv <> 0%Z -> adaptBudget policy conv nphot = nphot).
Proof.
  intro H. unfold adaptBudget.
  destruct (Z.eqb_spec conv 0); split; try lia; intro; congruence.
Qed.

Section BudgetProperties.

Variable solve : list (list R) -> list R -> option (list R).
Variable mds : list molData.
Variable collRate : Grid.grid -> nat -> nat -> nat -> R.
Variable radRate : list R -> nat -> nat -> nat -> R.
Variable castRay : list Grid.grid -> Grid.grid -> nat -> list R.
Variable varGoal : R.
Variable policy : Z -> Z.

Local Abbreviation updateVertex' :=
  (updateVertex solve mds collRate radRate castRay varGoal policy).
Local Abbreviation sweep' :=
  (sweep solve mds collRate radRate castRay varGoal policy).
Local Abbreviation sweeps' :=
  (sweeps solve mds collRate radRate castRay varGoal policy).

Lemma updateVertex_budget G v :
  (Grid.nphot v <= max_phot)%Z ->
  (Grid.nphot v <= Grid.nphot (updateVertex' G v) <= max_phot)%Z.
Proof.
  intro H. unfold updateVertex.
  destruct (negb (Grid.sink v =? 0)%Z); [ lia | ].
  cbn [Grid.nphot Grid.update]. apply adaptBudget_bounds. exact H.
Qed.

Lemma sweep_budget G :
  Forall (fun v => (Grid.nphot v <= max_phot)%Z) G ->
  Forall (fun v => (Grid.nphot v <= max_phot)%Z) (sweep' G).
Proof.
  intro H. unfold sweep. apply Forall_map.
  rewrite Forall_forall in *. intros v Hin.
  apply updateVertex_budget, H, Hin.
Qed.

Lemma sweeps_budget G n :
  Forall (fun v => (Grid.nphot v <= max_phot)%Z) G ->
  Forall (fun v => (Grid.nphot v <= max_phot)%Z) (sweeps' n G).
Proof.
  intro H. induction n as [|n IH]; simpl; [ exact H | ].
  apply sweep_budget, IH.
Qed.


End BudgetProperties.


(* ================================================================== *)
(** * Properties of the mesh                                         *)
(* ================================================================== *)

Lemma rd_of_nat {A : Type} (l : list A) (k : nat) :
  rd l (Z.of_nat k) = nth_error l k.
Proof.
  unfold rd. destruct (Z.ltb_spec (Z.of_nat k) 0); [ lia | ].
  rewrite Nat2Z.id. reflexivity.
Qed.

Lemma rd_In {A : Type} (l : list A) (k : Z) (a : A) :
  rd l k = Some a -> In a l.
Proof.
  unfold rd. destruct (k <? 0)%Z; [ discriminate | ]. apply nth_error_In.
Qed.

Lemma memZ_In v l : memZ v l = true <-> In v l.
Proof.
  unfold memZ. rewrite existsb_exists. split.
  - intros (x & Hin & Hx). apply Z.eqb_eq in Hx. subst. exact Hin.
  - intro H. exists v. split; [ exact H | apply Z.eqb_refl ].
Qed.

Lemma find_none_iff {A : Type} (f : A -> bool) (l : list A) :
  find f l = None <-> forall a, In a l -> f a = false.
Proof.
  split; [ apply find_none | ].
  induction l as [|x l IH]; intro H; simpl; [ reflexivity | ].
  rewrite (H x (or_introl eq_refl)). apply IH.
  intros a Ha. apply H. right. exact Ha.
Qed.

Section MeshProperties.

Variable simplices : list (list Z).
Variable adjacency : list (list nat).
Variable points : list (list R).

Local Abbreviation cells := (delaunay simplices adjacency points).
Local Abbreviation buildCell' := (buildCell simplices adjacency points).

Lemma delaunay_nth k :
  nth_error cells k
  = option_map (buildCell' k) (nth_error simplices k).
Proof.
  unfold delaunay. rewrite nth_error_map.
  destruct (nth_error simplices k) as [verts|] eqn:E.
  - assert (Hk : (k < length simplices)%nat)
      by (apply nth_error_Some; congruence).
    rewrite (nth_error_combine _ _ k k verts (nth_error_seq0 _ _ Hk) E).
    reflexivity.
  - apply nth_error_None in E.
    assert (H : nth_error (combine (seq 0 (length simplices)) simplices) k
                = None).
    { apply nth_error_None. rewrite length_combine, length_seq. lia. }
    rewrite H. reflexivity.
Qed.

Lemma delaunay_In c :
  In c cells ->
  exists k verts, nth_error simplices k = Some verts /\
                  nth_error cells k = Some c /\ c = buildCell' k verts.
Proof.
  intro H. apply In_nth_error in H. destruct H as [k Hk].
  pose proof Hk as Hk'. rewrite delaunay_nth in Hk.
  destruct (nth_error simplices k) as [verts|] eqn:E; [ | discriminate ].
  injection Hk as Hk. exists k, verts. auto.
Qed.

Lemma buildCell_neigh k verts i :
  (i <= DIM)%nat ->
  nth i (Cell.neigh (buildCell' k verts)) None
  = neighbourAcross simplices (nth k adjacency []) verts i.
Proof.
  intro Hi. unfold DIM in Hi. cbn [Cell.neigh buildCell].
  apply nth_error_nth. rewrite nth_error_map.
  rewrite nth_error_seq0 by (unfold DIM; lia). reflexivity.
Qed.

Lemma delaunay_opposite c i :
  In c cells -> (i <= DIM)%nat -> oppositeFace cells c i.
Proof.
  intros Hc Hi. destruct (delaunay_In c Hc) as (k & verts & _ & _ & ->).
  unfold oppositeFace. rewrite (buildCell_neigh k verts i Hi).
  unfold neighbourAcross.
  destruct (find _ _) as [k'|] eqn:F; cbn [option_map]; [ | exact I ].
  apply find_some in F. destruct F as [_ F]. unfold abutsAt in F.
  destruct (nth_error simplices k') as [other|] eqn:E; [ | discriminate ].
  exists (buildCell' k' other). split.
  - rewrite rd_of_nat, delaunay_nth, E. reflexivity.
  - cbn [Cell.vertx buildCell]. unfold abuts in F.
    apply andb_prop in F. destruct F as [Fall Fopp]. split.
    + intros v Hv. rewrite forallb_forall in Fall.
      apply memZ_In, Fall, Hv.
    + intro Hin. apply memZ_In in Hin. rewrite Hin in Fopp. discriminate.
Qed.

Lemma followRay_in_mesh exitFace fuel c entry c1 i1 :
  In c cells ->
  In (c1, i1) (followRay cells exitFace fuel c entry) -> In c1 cells.
Proof.
  revert c entry. induction fuel as [|fuel IH]; intros c entry Hc Hin;
    simpl in Hin; [ contradiction | ].
  destruct (exitFace c entry) as [i|]; [ | contradiction ].
  destruct Hin as [Heq | Hin]; [ injection Heq as <- _; exact Hc | ].
  unfold neighbourCell in Hin.
  destruct (nth i (Cell.neigh c) None) as [k|]; [ | contradiction ].
  destruct (rd cells k) as [c'|] eqn:E; [ | contradiction ].
  apply (IH c' _ (rd_In _ _ _ E) Hin).
Qed.

(** C6. In every cell built from the triangulation and for every
    index i in 0..DIM, the cell that [neigh[i]] points to holds the face
    opposite [vertx[i]] and not [vertx[i]]; [neigh[i]] is NULL exactly
    when no adjacent simplex lies across that face; and every cell met
    while a ray is followed through the mesh is a cell of that same
    mesh, with the same correspondence at the face it is left by. *)
Theorem cell_opposite_face_invariant :
  meshInvariant cells /\
  (forall (k : nat) (c : Cell.cell) (i : nat),
     nth_error cells k = Some c -> (i <= DIM)%nat ->
     (nth i (Cell.neigh c) None = None <->
      forall a : nat, In a (nth k adjacency []) ->
                      abutsAt simplices (Cell.vertx c) i a = false)) /\
  (forall (exitFace : Cell.cell -> option nat -> option nat)
          (fuel : nat) (c : Cell.cell) (entry : option nat)
          (c1 : Cell.cell) (i1 : nat),
     In c cells ->
     In (c1, i1) (followRay cells exitFace fuel c entry) ->
     In c1 cells /\ ((i1 <= DIM)%nat -> oppositeFace cells c1 i1)).
Proof.
  split; [ intros c Hc i Hi; apply delaunay_opposite; assumption | ].
  split.
  - intros k c i Hk Hi. rewrite delaunay_nth in Hk.
    destruct (nth_error simplices k) as [verts|]; [ | discriminate ].
    injection Hk as <-. rewrite (buildCell_neigh k verts i Hi).
    cbn [Cell.vertx buildCell]. unfold neighbourAcross.
    rewrite <- find_none_iff.
    destruct (find _ _); cbn [option_map]; split; intro; congruence.
  - intros exitFace fuel c entry c1 i1 Hc Hin.
    pose proof (followRay_in_mesh _ _ _ _ _ _ Hc Hin) as H1.
    split; [ exact H1 | intro Hi; apply delaunay_opposite; assumption ].
Qed.

End MeshProperties.

(* ================================================================== *)
(** * Further properties of FastExp                                  *)
(* ================================================================== *)

Lemma allOnes_exponent m :
  F32.biasedExp m = 255%Z -> F32.eq0 m = false /\ expIndex m = 133%Z.
Proof.
  intro He. split.
  - unfold F32.eq0, F32.isZero. apply Z.eqb_neq.
    rewrite low31_eq, low31_split, He.
    pose proof (mantBits_range m). lia.
  - change (expIndex m) with (F32.biasedExp m - 122)%Z. lia.
Qed.

(** X1. Every NaN, whatever its sign and payload, and +infinity make
    [FastExp] return 0.0: they fail both comparisons with 0.0 and their
    exponent field is above the table range. *)
Theorem FastExp_nan_and_infinity
  (rnd : R -> R) (c_exp : double -> double) (oneOver_i : nat -> R)
  (T2 : Z -> Z -> R) (T3 : Z -> Z -> Z -> R) (m : Z) :
  (F32.isNaN m = true -> FastExp rnd c_exp oneOver_i T2 T3 m = DFin 0) /\
  (F32.isInf m = true -> F32.signBit m = false ->
   FastExp rnd c_exp oneOver_i T2 T3 m = DFin 0).
Proof.
  split.
  - intro Hn. assert (Hlt : F32.lt0 m = false).
    { unfold F32.lt0. rewrite Hn. cbn [negb]. rewrite andb_false_r.
      reflexivity. }
    unfold F32.isNaN in Hn. apply andb_prop in Hn. destruct Hn as [He _].
    apply Z.eqb_eq in He. destruct (allOnes_exponent m He) as [Heq Hl].
    apply FastExp_zero_branch; try assumption.
    rewrite Hl. unfold numExponentsUsed. lia.
  - intros Hi Hs. assert (Hlt : F32.lt0 m = false).
    { unfold F32.lt0. rewrite Hs. reflexivity. }
    unfold F32.isInf in Hi. apply andb_prop in Hi. destruct Hi as [He _].
    apply Z.eqb_eq in He. destruct (allOnes_exponent m He) as [Heq Hl].
    apply FastExp_zero_branch; try assumption.
    rewrite Hl. unfold numExponentsUsed. lia.
Qed.

(** X3. Whatever the bit pattern, the three mantissa fields are below
    128, 256 and 256, and on the table branch the exponent index is below
    10: every lookup falls inside [EXP_TABLE_2D[128][10]] and
    [EXP_TABLE_3D[256][2][10]]. *)
Theorem FastExp_table_indices_in_bounds (m : Z) :
  (0 <= Z.shiftr (Z.land m mantMask0) mantOffset0 < 128)%Z /\
  (0 <= Z.shiftr (Z.land m mantMask1) mantOffset1 < 256)%Z /\
  (0 <= Z.shiftr (Z.land m mantMask2) mantOffset2 < 256)%Z /\
  ((expIndex m <? 0)%Z = false ->
   (expIndex m >=? numExponentsUsed)%Z = false ->
   (0 <= expIndex m < 10)%Z).
Proof.
  rewrite j0_eq, j1_eq, j2_eq.
  split; [ apply Z.mod_pos_bound; lia | ].
  split; [ apply Z.mod_pos_bound; lia | ].
  split; [ apply Z.mod_pos_bound; lia | ].
  unfold numExponentsUsed. intros H1 H2.
  apply Z.ltb_ge in H1.
  destruct (Z.geb_spec (expIndex m) 10); [ discriminate | lia ].
Qed.

(** Truncation plus rounding in the Taylor region, in absolute terms. *)
Lemma taylor_absErr u r x :
  0 <= u <= unitRoundoff -> 0 <= x < / 32 ->
  Rabs (r - taylorPoly 3 x) <= 2 * u ->
  Rabs (r - exp (- x)) < 4e-8 /\ 31 / 32 <= exp (- x) <= 1 /\
  15 / 16 <= r.
Proof.
  intros Hu Hx Hr. unfold unitRoundoff in Hu.
  apply Rabs_le_inv in Hr.
  pose proof (exp_neg_taylor3 x ltac:(lra)) as He.
  assert (Hp : taylorPoly 3 x = 1 - x + x ^ 2 / 2 - x ^ 3 / 6).
  { unfold taylorPoly. simpl. field. }
  rewrite Hp in Hr.
  assert (Hxx : 0 <= x * x <= / 1024)
    by (by_mul_bounds x x 0 (/ 32) 0 (/ 32)).
  assert (Hx4 : 0 <= x ^ 4 / 24 <= 3.98e-8).
  { pose proof (mul_bounds (x * x) (x * x) 0 (/ 1024) 0 (/ 1024)).
    replace (x ^ 4) with (x * x * (x * x)) by ring. lra. }
  assert (Hx3 : 0 <= x ^ 3 / 6 <= x ^ 2 / 2).
  { pose proof (mul_bounds (x * x) x 0 (x * x) 0 (/ 32)).
    replace (x ^ 3) with (x * x * x) by ring.
    replace (x ^ 2) with (x * x) by ring. lra. }
  assert (Hxl : x * x <= x / 32)
    by (pose proof (mul_bounds x x 0 x 0 (/ 32)); lra).
  assert (Hx2 : x ^ 2 / 2 <= x / 64)
    by (replace (x ^ 2) with (x * x) by ring; lra).
  assert (Hx4' : x ^ 4 / 24 <= x / 64).
  { pose proof (mul_bounds (x * x) (x * x) 0 (x / 32) 0 (/ 1024)).
    replace (x ^ 4) with (x * x * (x * x)) by ring. lra. }
  split; [ apply Rabs_def1; lra | ].
  split; lra.
Qed.

Lemma relErr_inv r x e :
  relErr r x <= e -> Rabs (r - exp (- x)) <= e * exp (- x).
Proof.
  unfold relErr. intro H. pose proof (exp_pos (- x)) as Hp.
  apply (Rmult_le_compat_r (exp (- x))) in H; [ | lra ].
  unfold Rdiv in H. rewrite Rmult_assoc, Rinv_l, Rmult_1_r in H by lra.
  exact H.
Qed.

Section FastExpFurther.

Variable u : R.
Hypothesis u_range : 0 <= u <= unitRoundoff.
Variable rnd : R -> R.
Hypothesis rnd_ok : roundsWithin u rnd.
Variable c_exp : double -> double.
Variable oneOver_i : nat -> R.
Hypothesis oneOver_ok : reciprocalsWithin u oneOver_i.
Variable etab : R.
Hypothesis etab_range : 0 <= etab <= 1e-5.
Variable EXP_TABLE_2D : Z -> Z -> R.
Variable EXP_TABLE_3D : Z -> Z -> Z -> R.
Hypothesis tables_ok : tablesWithin etab EXP_TABLE_2D EXP_TABLE_3D.

Local Abbreviation FastExp' :=
  (FastExp rnd c_exp oneOver_i EXP_TABLE_2D EXP_TABLE_3D).

(** X2. Which formula [FastExp] applies to a positive finite float is
    decided by its value alone: the Taylor loop below 2^-5, the product
    of three table entries from 2^-5 up to 32, and 0.0 from 32 on. *)
Theorem FastExp_branch_by_value (m : Z) :
  F32.isPositive m = true ->
  let x := F32.F2R m in
  (x < / 32 ->
   FastExp' m
   = DFin (taylorLoop rnd oneOver_i FAST_EXP_MAX_TAYLOR x 1)) /\
  (/ 32 <= x < 32 ->
   FastExp' m
   = DFin (fmul rnd
             (fmul rnd
                (EXP_TABLE_2D
                   (Z.shiftr (Z.land m mantMask0) mantOffset0)
                   (expIndex m))
                (EXP_TABLE_3D
                   (Z.shiftr (Z.land m mantMask1) mantOffset1) 0
                   (expIndex m)))
             (EXP_TABLE_3D
                (Z.shiftr (Z.land m mantMask2) mantOffset2) 1
                (expIndex m)))) /\
  (32 <= x -> FastExp' m = DFin 0).
Proof.
  intros Hp x. destruct (isPositive_inv m Hp) as (Hlt & Heq & _).
  destruct (expIndex_thresholds m Hp) as [Hlo Hhi]. fold x in Hlo, Hhi.
  split; [ | split ]; intro Hx.
  - apply FastExp_taylor_branch; try assumption. apply Hlo, Hx.
  - apply FastExp_table_branch; try assumption.
    destruct (Z_lt_ge_dec (expIndex m) 0) as [Hl|Hl];
      [ apply Hlo in Hl; lra | ].
    destruct (Z_lt_ge_dec (expIndex m) numExponentsUsed) as [Hh|Hh];
      [ lia | apply Hhi in Hh; lra ].
  - apply FastExp_zero_branch; try assumption. apply Hhi, Hx.
Qed.

(** X4. In the Taylor branch the value returned is within 4e-8 of
    [exp (- x)] in absolute and within 5e-8 in relative terms, and it is
    at least 15/16. *)
Theorem FastExp_taylor_accuracy (m : Z) :
  F32.isPositive m = true -> (expIndex m < 0)%Z ->
  let x := F32.F2R m in
  exists r : R,
    FastExp' m = DFin r /\
    Rabs (r - exp (- x)) < 4e-8 /\ relErr r x < 5e-8 /\ 15 / 16 <= r.
Proof.
  intros Hp Hl x. destruct (isPositive_inv m Hp) as (Hlt & Heq & _).
  destruct (taylor_branch_relErr u u_range rnd rnd_ok c_exp oneOver_i
              oneOver_ok EXP_TABLE_2D EXP_TABLE_3D m Hlt Heq Hl)
    as (r & Hr & He & _).
  pose proof (taylor_region m Hlt Heq Hl) as Hx. fold x in He, Hx.
  destruct (taylor_absErr u r x u_range ltac:(lra) He) as (Ha & Hb & Hc).
  exists r. repeat split; try assumption.
  apply relErr_lt. lra.
Qed.

(** X5. In the table branch the relative error is at most four times
    that of the table entries plus three roundings, and the value
    returned is positive. *)
Theorem FastExp_table_error_budget (m : Z) :
  F32.isPositive m = true ->
  (0 <= expIndex m < numExponentsUsed)%Z ->
  let x := F32.F2R m in
  exists r : R,
    FastExp' m = DFin r /\ relErr r x <= 4 * etab + 3 * u /\ 0 < r.
Proof.
  intros Hp Hl x. destruct (isPositive_inv m Hp) as (Hlt & Heq & _).
  destruct (table_branch_relErr u u_range rnd rnd_ok c_exp oneOver_i
              etab etab_range EXP_TABLE_2D EXP_TABLE_3D tables_ok
              m Hlt Heq Hl) as (r & Hr & Hrel).
  fold x in Hrel. exists r. repeat split; try assumption.
  apply relErr_inv in Hrel. apply Rabs_le_inv in Hrel.
  pose proof (exp_pos (- x)) as He. unfold unitRoundoff in u_range.
  assert (H : (4 * etab + 3 * u) * exp (- x) <= / 2 * exp (- x))
    by (apply Rmult_le_compat_r; lra).
  lra.
Qed.

(** X6. On every positive finite float the absolute error of
    [FastExp] is at most 4e-8 plus four times the relative error of the
    table entries; from 32 on, where 0.0 is returned, it is at most
    2.4e-14. *)
Theorem FastExp_absolute_error (m : Z) :
  F32.isPositive m = true ->
  let x := F32.F2R m in
  exists r : R,
    FastExp' m = DFin r /\
    Rabs (r - exp (- x)) <= 4e-8 + 4 * etab /\
    (32 <= x -> r = 0 /\ Rabs (r - exp (- x)) <= 2.4e-14).
Proof.
  intros Hp x. destruct (isPositive_inv m Hp) as (Hlt & Heq & _).
  destruct (expIndex_thresholds m Hp) as [Hlo Hhi]. fold x in Hlo, Hhi.
  pose proof (isPositive_gt0 m Hp) as Hx0. fold x in Hx0.
  unfold unitRoundoff in u_range.
  destruct (Z_lt_ge_dec (expIndex m) 0) as [Hl|Hl].
  - destruct (taylor_branch_relErr u u_range rnd rnd_ok c_exp oneOver_i
                oneOver_ok EXP_TABLE_2D EXP_TABLE_3D m Hlt Heq Hl)
      as (r & Hr & He & _).
    fold x in He. apply Hlo in Hl.
    destruct (taylor_absErr u r x
                ltac:(unfold unitRoundoff; exact u_range)
                ltac:(lra) He) as (Ha & _ & _).
    exists r. split; [ exact Hr | ]. split; [ lra | intro; lra ].
  - destruct (Z_lt_ge_dec (expIndex m) numExponentsUsed) as [Hh|Hh].
    + destruct (table_branch_relErr u
                  ltac:(unfold unitRoundoff; exact u_range)
                  rnd rnd_ok c_exp oneOver_i
                  etab etab_range EXP_TABLE_2D EXP_TABLE_3D tables_ok
                  m Hlt Heq ltac:(lia)) as (r & Hr & Hrel).
      fold x in Hrel. exists r. split; [ exact Hr | ].
      assert (Hx32 : x < 32).
      { destruct (Rlt_le_dec x 32) as [|H32]; [ assumption | ].
        apply Hhi in H32. lia. }
      split; [ | intro; lra ].
      apply relErr_inv in Hrel.
      pose proof (exp_neg_range x ltac:(lra)) as He.
      assert (H : (4 * etab + 3 * u) * exp (- x) <= 4 * etab + 3 * u).
      { pose proof (mul_bounds (4 * etab + 3 * u) (exp (- x))
                      0 (4 * etab + 3 * u) 0 1). lra. }
      lra.
    + exists 0. apply Hhi in Hh.
      split; [ apply FastExp_zero_branch; try assumption;
               apply Hhi; exact Hh | ].
      pose proof (exp_neg_le_m32 x Hh) as He.
      assert (Ha : Rabs (0 - exp (- x)) = exp (- x)).
      { rewrite Rminus_0_l, Rabs_Ropp. apply Rabs_pos_eq. lra. }
      rewrite Ha. split; [ lra | intros _; split; [ reflexivity | lra ] ].
Qed.

(** X7. On a positive finite float the value returned is never
    negative, and it is 0.0 exactly when the argument is 32 or more. *)
Theorem FastExp_zero_iff (m : Z) :
  F32.isPositive m = true ->
  exists r : R,
    FastExp' m = DFin r /\ 0 <= r /\ (r = 0 <-> 32 <= F32.F2R m).
Proof.
  intros Hp. destruct (isPositive_inv m Hp) as (Hlt & Heq & _).
  destruct (expIndex_thresholds m Hp) as [Hlo Hhi].
  destruct (Z_lt_ge_dec (expIndex m) 0) as [Hl|Hl].
  - destruct (taylor_branch_relErr u u_range rnd rnd_ok c_exp oneOver_i
                oneOver_ok EXP_TABLE_2D EXP_TABLE_3D m Hlt Heq Hl)
      as (r & Hr & He & _).
    pose proof Hl as Hx. apply Hlo in Hx.
    pose proof (isPositive_gt0 m Hp) as Hx0.
    destruct (taylor_absErr u r (F32.F2R m) u_range ltac:(lra) He)
      as (_ & _ & Hc).
    exists r. split; [ exact Hr | ]. split; [ lra | ].
    split; intro H; [ lra | apply Hhi in H; unfold numExponentsUsed in H;
                             lia ].
  - destruct (Z_lt_ge_dec (expIndex m) numExponentsUsed) as [Hh|Hh].
    + destruct (table_branch_relErr u u_range rnd rnd_ok c_exp oneOver_i
                  etab etab_range EXP_TABLE_2D EXP_TABLE_3D tables_ok
                  m Hlt Heq ltac:(lia)) as (r & Hr & Hrel).
      apply relErr_inv in Hrel. apply Rabs_le_inv in Hrel.
      pose proof (exp_pos (- F32.F2R m)) as He.
      unfold unitRoundoff in u_range.
      assert (H : (4 * etab + 3 * u) * exp (- F32.F2R m)
                  <= / 2 * exp (- F32.F2R m))
        by (apply Rmult_le_compat_r; lra).
      exists r. split; [ exact Hr | ]. split; [ lra | ].
      split; intro H0; [ lra | apply Hhi in H0; lia ].
    + exists 0. split; [ apply FastExp_zero_branch; assumption | ].
      split; [ lra | ].
      split; intro; [ apply Hhi; exact Hh | reflexivity ].
Qed.

End FastExpFurther.

(* ================================================================== *)
(** * Further properties of the source functions                     *)
(* ================================================================== *)

Lemma rd_defined {A : Type} (l : list A) (i : Z) :
  rd l i <> None <-> (0 <= i < Z.of_nat (length l))%Z.
Proof.
  unfold rd. destruct (Z.ltb_spec i 0) as [Hn|Hn].
  - split; [ congruence | lia ].
  - rewrite nth_error_Some. lia.
Qed.

Lemma rd_in_range {A : Type} (l : list A) (i : Z) :
  (0 <= i < Z.of_nat (length l))%Z -> exists a, rd l i = Some a.
Proof.
  intro H. apply rd_defined in H.
  destruct (rd l i) as [a|]; [ exists a; reflexivity | congruence ].
Qed.

Lemma rd_out_of_range {A : Type} (l : list A) (i : Z) :
  ~ (0 <= i < Z.of_nat (length l))%Z -> rd l i = None.
Proof.
  intro H. destruct (rd l i) eqn:E; [ | reflexivity ].
  exfalso. apply H, rd_defined. congruence.
Qed.

Lemma rd_Forall {A : Type} (P : A -> Prop) (l : list A) (i : Z) (a : A) :
  Forall P l -> rd l i = Some a -> P a.
Proof.
  intros HF Hr. rewrite Forall_forall in HF. apply HF.
  unfold rd in Hr. destruct (i <? 0)%Z; [ discriminate | ].
  eapply nth_error_In, Hr.
Qed.

(** X8. On well-formed line data both source functions read inside
    their arrays exactly for the line indices 0 <= lineI < nline: there
    they return a result, and for any other index they read out of
    bounds. *)
Theorem sourceFunc_defined_iff (fl : R -> double) (md : molData) (vfac : R)
  (gm : populations) (lineI : Z) (acc : srcAcc) :
  wfLineData md gm ->
  ((0 <= lineI < nline md)%Z
   <-> sourceFunc_line fl md vfac gm lineI acc <> None) /\
  ((0 <= lineI < nline md)%Z <-> sourceFunc_cont fl gm lineI acc <> None).
Proof.
  intros (Hu & Hl & Ha & Hbu & Hbl & Hk & Hd & Fu & Fl).
  assert (Hlen : forall {A : Type} (l : list A),
             length l = Z.to_nat (nline md) ->
             ((0 <= lineI < nline md)%Z
              <-> (0 <= lineI < Z.of_nat (length l))%Z)).
  { intros A l E. rewrite E. lia. }
  split; split.
  - intro Hr. unfold sourceFunc_line.
    destruct (rd_in_range (lau md) lineI (proj1 (Hlen _ _ Hu) Hr))
      as [up Eu].
    destruct (rd_in_range (lal md) lineI (proj1 (Hlen _ _ Hl) Hr))
      as [lo El].
    destruct (rd_in_range (aeinst md) lineI (proj1 (Hlen _ _ Ha) Hr))
      as [a Ea].
    destruct (rd_in_range (beinstu md) lineI (proj1 (Hlen _ _ Hbu) Hr))
      as [bu Ebu].
    destruct (rd_in_range (beinstl md) lineI (proj1 (Hlen _ _ Hbl) Hr))
      as [bl Ebl].
    destruct (rd_in_range (pops gm) up (rd_Forall _ _ _ _ Fu Eu))
      as [nu Enu].
    destruct (rd_in_range (pops gm) lo (rd_Forall _ _ _ _ Fl El))
      as [nl Enl].
    rewrite Eu; cbn [bind]. rewrite Enu; cbn [bind].
    rewrite Ea; cbn [bind]. rewrite El; cbn [bind].
    rewrite Enl; cbn [bind]. rewrite Ebl; cbn [bind].
    rewrite Ebu; cbn [bind]. discriminate.
  - intro Hn. apply (Hlen _ _ Hu).
    destruct (Z_lt_ge_dec lineI 0) as [H0|H0];
      [ | destruct (Z_lt_ge_dec lineI (Z.of_nat (length (lau md))))
            as [H1|H1]; [ lia | ] ];
      exfalso; apply Hn; unfold sourceFunc_line;
      rewrite (rd_out_of_range (lau md) lineI) by lia; reflexivity.
  - intro Hr. unfold sourceFunc_cont.
    destruct (rd_in_range (dust gm) lineI (proj1 (Hlen _ _ Hd) Hr))
      as [d Ed].
    destruct (rd_in_range (knu gm) lineI (proj1 (Hlen _ _ Hk) Hr))
      as [k Ek].
    rewrite Ed; cbn [bind]. rewrite Ek; cbn [bind]. discriminate.
  - intro Hn. apply (Hlen _ _ Hd).
    destruct (Z_lt_ge_dec lineI 0) as [H0|H0];
      [ | destruct (Z_lt_ge_dec lineI (Z.of_nat (length (dust gm))))
            as [H1|H1]; [ lia | ] ];
      exfalso; apply Hn; unfold sourceFunc_cont;
      rewrite (rd_out_of_range (dust gm) lineI) by lia; reflexivity.
Qed.

(** X11. With a positive computed factor vfac*HPIP*binv*nmol and a
    finite [*alpha], the absorption accumulator follows the side of the
    computed pops[lower]*B_lower against the computed
    pops[upper]*B_upper: it does not decrease for a normal population, is
    left exactly as it was at balance, and does not increase for an
    inverted one; and with a finite computed factor that is not negative,
    a population that is not negative and a positive Einstein A, a finite
    [*jnu] does not decrease. *)
Theorem sourceFunc_line_signs
  (u : R) (fl : R -> double)
  (md : molData) (vfac : R) (gm : populations) (lineI : Z) (acc : srcAcc)
  (up lo : Z) (n_up n_lo a bl bu : R) :
  roundsToDouble u fl ->
  rd (lau md) lineI = Some up -> rd (pops gm) up = Some n_up ->
  rd (lal md) lineI = Some lo -> rd (pops gm) lo = Some n_lo ->
  rd (aeinst md) lineI = Some a ->
  rd (beinstl md) lineI = Some bl -> rd (beinstu md) lineI = Some bu ->
  let factor :=
    dmul fl (dmul fl (dmul fl (DFin vfac) (fl HPIP)) (DFin (binv gm)))
         (DFin (nmol gm)) in
  exists acc' : srcAcc,
    sourceFunc_line fl md vfac gm lineI acc = Some acc' /\
    (forall f x_lo x_up a0 : R,
       factor = DFin f -> 0 < f ->
       dmul fl (DFin n_lo) (DFin bl) = DFin x_lo ->
       dmul fl (DFin n_up) (DFin bu) = DFin x_up ->
       alpha acc = DFin a0 -> isDouble fl a0 ->
       (x_up < x_lo -> dle (alpha acc) (alpha acc')) /\
       (x_up = x_lo -> alpha acc' = alpha acc) /\
       (x_lo < x_up -> dle (alpha acc') (alpha acc))) /\
    (forall f j0 : R,
       factor = DFin f -> 0 <= f -> 0 <= n_up -> 0 < a ->
       jnu acc = DFin j0 -> isDouble fl j0 ->
       dle (jnu acc) (jnu acc')).
Proof.
  intros Hfl Hup Hnu Hlo Hnl Ha Hbl Hbu factor.
  rewrite (sourceFunc_line_some fl md vfac gm lineI acc up lo
             n_up n_lo a bl bu) by assumption.
  fold factor. eexists. split; [ reflexivity | ]. cbn [jnu alpha].
  split.
  - intros f x_lo x_up a0 Hf Hf0 Hpl Hpu Ea Ha0.
    rewrite Hf, Hpl, Hpu, Ea.
    split; [ | split ].
    + intro H. apply (dadd_nonneg u fl Hfl); [ exact Ha0 | ].
      apply (dmul_pos_nonneg u fl Hfl); [ exact Hf0 | ].
      apply (dsub_nonneg u fl Hfl). lra.
    + intros ->. rewrite (dsub_diag u fl Hfl).
      destruct Hfl as (H0 & _). cbn [dmul].
      rewrite Rmult_0_r, H0. apply dadd_zero. exact Ha0.
    + intro H. apply (dadd_nonpos u fl Hfl); [ exact Ha0 | ].
      apply (dmul_pos_nonpos u fl Hfl); [ exact Hf0 | ].
      apply (dsub_nonpos u fl Hfl). lra.
  - intros f j0 Hf Hf0 Hn Ha0 Ej Hj0.
    rewrite Hf, Ej. apply (dadd_nonneg u fl Hfl); [ exact Hj0 | ].
    assert (He : dle (DFin 0) (dmul fl (DFin f) (DFin n_up))).
    { cbn [dmul]. apply (fl_nonneg u fl Hfl). apply Rmult_le_pos; lra. }
    destruct (zero_dle_inv _ He) as [->|(e1 & -> & He1)].
    + cbn [dmul]. rewrite Reqb_nonzero, Rltb_nonneg by lra. exact I.
    + cbn [dmul]. apply (fl_nonneg u fl Hfl). apply Rmult_le_pos; lra.
Qed.


(** X12. The derived constants of the header agree with the formulas
    in their comments, evaluated on the header's own primary constants:
    [HPIP] with HPLANCK*CLIGHT/4/PI/SPI, [HCKB] with
    100*HPLANCK*CLIGHT/KBOLTZ and [PC] with 3600*180*AU/PI to within a
    relative 1e-8, and [SPI] squared with [PI] to within 1e-11. *)
Theorem derived_constants_consistent :
  Rabs (HPIP - Consts.HPLANCK * Consts.CLIGHT / 4 / Consts.PI / Consts.SPI)
  <= 1e-8 * HPIP /\
  Rabs (HCKB - 100 * Consts.HPLANCK * Consts.CLIGHT / Consts.KBOLTZ)
  <= 1e-8 * HCKB /\
  Rabs (Consts.PC - 3600 * 180 * Consts.AU / Consts.PI) <= 1e-8 * Consts.PC /\
  Rabs (Consts.SPI * Consts.SPI - Consts.PI) <= 1e-11 * Consts.PI.
Proof.
  unfold HPIP, HCKB, Consts.HPLANCK, Consts.CLIGHT, Consts.KBOLTZ,
    Consts.PC, Consts.AU, Consts.PI, Consts.SPI.
  repeat split; apply Rabs_le; lra.
Qed.

(* ================================================================== *)
(** * Instances of the further properties                            *)
(* ================================================================== *)

Lemma FastExp_branch_by_value_witness :
  let x := F32.F2R 1078530011 in
  (x < / 32 ->
   FastExp exactRnd exactExp exactOneOver exactTable2D exactTable3D
     1078530011
   = DFin (taylorLoop exactRnd exactOneOver FAST_EXP_MAX_TAYLOR x 1)) /\
  (/ 32 <= x < 32 ->
   FastExp exactRnd exactExp exactOneOver exactTable2D exactTable3D
     1078530011
   = DFin (fmul exactRnd
             (fmul exactRnd
                (exactTable2D
                   (Z.shiftr (Z.land 1078530011 mantMask0) mantOffset0)
                   (expIndex 1078530011))
                (exactTable3D
                   (Z.shiftr (Z.land 1078530011 mantMask1) mantOffset1) 0
                   (expIndex 1078530011)))
             (exactTable3D
                (Z.shiftr (Z.land 1078530011 mantMask2) mantOffset2) 1
                (expIndex 1078530011)))) /\
  (32 <= x ->
   FastExp exactRnd exactExp exactOneOver exactTable2D exactTable3D
     1078530011 = DFin 0).
Proof.
  exact (FastExp_branch_by_value exactRnd exactExp exactOneOver
           exactTable2D exactTable3D 1078530011 eq_refl).
Defined.

Lemma FastExp_taylor_accuracy_witness :
  let x := F32.F2R 1015021568 in
  exists r : R,
    FastExp exactRnd exactExp exactOneOver exactTable2D exactTable3D
      1015021568 = DFin r /\
    Rabs (r - exp (- x)) < 4e-8 /\ relErr r x < 5e-8 /\ 15 / 16 <= r.
Proof.
  exact (FastExp_taylor_accuracy unitRoundoff unitRoundoff_range
           exactRnd exactRnd_ok exactExp exactOneOver exactOneOver_ok
           exactTable2D exactTable3D 1015021568 eq_refl eq_refl).
Defined.

Lemma expIndex_pi_in_table :
  (0 <= expIndex 1078530011 < numExponentsUsed)%Z.
Proof. split; [ discriminate | reflexivity ]. Qed.

Lemma FastExp_table_error_budget_witness :
  let x := F32.F2R 1078530011 in
  exists r : R,
    FastExp exactRnd exactExp exactOneOver exactTable2D exactTable3D
      1078530011 = DFin r /\
    relErr r x <= 4 * 0 + 3 * unitRoundoff /\ 0 < r.
Proof.
  exact (FastExp_table_error_budget unitRoundoff unitRoundoff_range
           exactRnd exactRnd_ok exactExp exactOneOver
           0 etab0_range exactTable2D exactTable3D exactTables_ok
           1078530011 eq_refl expIndex_pi_in_table).
Defined.

Lemma FastExp_absolute_error_witness :
  let x := F32.F2R 1107296256 in
  exists r : R,
    FastExp exactRnd exactExp exactOneOver exactTable2D exactTable3D
      1107296256 = DFin r /\
    Rabs (r - exp (- x)) <= 4e-8 + 4 * 0 /\
    (32 <= x -> r = 0 /\ Rabs (r - exp (- x)) <= 2.4e-14).
Proof.
  exact (FastExp_absolute_error unitRoundoff unitRoundoff_range
           exactRnd exactRnd_ok exactExp exactOneOver exactOneOver_ok
           0 etab0_range exactTable2D exactTable3D exactTables_ok
           1107296256 eq_refl).
Defined.

Lemma FastExp_zero_iff_witness :
  exists r : R,
    FastExp exactRnd exactExp exactOneOver exactTable2D exactTable3D
      1107296256 = DFin r /\
    0 <= r /\ (r = 0 <-> 32 <= F32.F2R 1107296256).
Proof.
  exact (FastExp_zero_iff unitRoundoff unitRoundoff_range
           exactRnd exactRnd_ok exactExp exactOneOver exactOneOver_ok
           0 etab0_range exactTable2D exactTable3D exactTables_ok
           1107296256 eq_refl).
Defined.

Lemma twoLevel_lines_wf : wfLineData twoLevel invertedGas.
Proof.
  unfold wfLineData. cbn.
  repeat split; try reflexivity; repeat constructor; lia.
Qed.

Lemma sourceFunc_defined_iff_witness :
  ((0 <= 0 < nline twoLevel)%Z
   <-> sourceFunc_line exactFl twoLevel 1 invertedGas 0 zeroAcc <> None) /\
  ((0 <= 0 < nline twoLevel)%Z
   <-> sourceFunc_cont exactFl invertedGas 0 zeroAcc <> None).
Proof.
  exact (sourceFunc_defined_iff exactFl twoLevel 1 invertedGas 0 zeroAcc
           twoLevel_lines_wf).
Defined.

Lemma sourceFunc_line_signs_witness :
  let factor :=
    dmul exactFl
      (dmul exactFl (dmul exactFl (DFin 1) (exactFl HPIP))
            (DFin (binv invertedGas)))
      (DFin (nmol invertedGas)) in
  exists acc' : srcAcc,
    sourceFunc_line exactFl twoLevel 1 invertedGas 0 zeroAcc = Some acc' /\
    (forall f x_lo x_up a0 : R,
       factor = DFin f -> 0 < f ->
       dmul exactFl (DFin 1) (DFin 1) = DFin x_lo ->
       dmul exactFl (DFin 2) (DFin 1) = DFin x_up ->
       alpha zeroAcc = DFin a0 -> isDouble exactFl a0 ->
       (x_up < x_lo -> dle (alpha zeroAcc) (alpha acc')) /\
       (x_up = x_lo -> alpha acc' = alpha zeroAcc) /\
       (x_lo < x_up -> dle (alpha acc') (alpha zeroAcc))) /\
    (forall f j0 : R,
       factor = DFin f -> 0 <= f -> 0 <= 2 -> 0 < 1e-5 ->
       jnu zeroAcc = DFin j0 -> isDouble exactFl j0 ->
       dle (jnu zeroAcc) (jnu acc')).
Proof.
  exact (sourceFunc_line_signs unitRoundoff exactFl
           twoLevel 1 invertedGas 0 zeroAcc 1 0 2 1 1e-5 1 1
           exactFl_ok
           eq_refl eq_refl eq_refl eq_refl eq_refl eq_refl eq_refl).
Defined.


(* ================================================================== *)
(** * Worked examples                                                *)
(* ================================================================== *)

Example expIndex_pi : expIndex 1078530011 = 6%Z.
Proof. reflexivity. Qed.

Example expIndex_taylor : expIndex 1015021568 = (-1)%Z.
Proof. reflexivity. Qed.

(** NaN, +infinity and 32.0 all fall through to the last guard. *)
Example FastExp_nan :
  FastExp exactRnd exactExp exactOneOver exactTable2D exactTable3D
    0x7fc00000 = DFin 0.
Proof. reflexivity. Qed.

Example FastExp_inf :
  FastExp exactRnd exactExp exactOneOver exactTable2D exactTable3D
    0x7f800000 = DFin 0.
Proof. reflexivity. Qed.

Example FastExp_32 :
  FastExp exactRnd exactExp exactOneOver exactTable2D exactTable3D
    0x42000000 = DFin 0.
Proof. reflexivity. Qed.

Example sourceFunc_cont_dust :
  sourceFunc_cont exactFl invertedGas 0 zeroAcc
  = Some {| jnu := DFin (0 + 0 * 0); alpha := DFin (0 + 0) |}.
Proof. reflexivity. Qed.

Example F2R_one : F32.F2R 1065353216 = 1.
Proof.
  unfold F32.F2R, F32.magnitude.
  change (F32.signBit 1065353216) with false.
  change (F32.biasedExp 1065353216) with 127%Z.
  change (F32.mantBits 1065353216) with 0%Z.
  cbn [Z.eqb]. change (127 - 150)%Z with (-23)%Z.
  change (2 ^ 23 + 0)%Z with 8388608%Z.
  unfold powerRZ. simpl. lra.
Qed.

Example two_tetrahedra_neigh :
  map Cell.neigh
      (delaunay [[0; 1; 2; 3]; [1; 2; 3; 4]]%Z [[1%nat]; [0%nat]] [])
  = [[Some 1%Z; None; None; None]; [None; None; None; Some 0%Z]].
Proof. reflexivity. Qed.

Example entry_face_two_tetrahedra :
  let cells := delaunay [[0; 1; 2; 3]; [1; 2; 3; 4]]%Z [[1%nat]; [0%nat]] [] in
  option_map (getNewEntryFaceI cells 0) (nth_error cells 1) = Some (Some 3%nat).
Proof. reflexivity. Qed.

Example driver_first_step :
  state (step singularSolve [twoLevel] noColl jbarRad unitRay 1 tenMore 2 16
           (initDriver twoPointMesh)) = ITERATING.
Proof. reflexivity. Qed.

Example adaptBudget_grows : adaptBudget tenMore 0 9 = 19%Z.
Proof. reflexivity. Qed.

Example adaptBudget_capped : adaptBudget tenMore 0 9995 = 10000%Z.
Proof. reflexivity. Qed.

Example adaptBudget_converged : adaptBudget tenMore 1 9 = 9%Z.
Proof. reflexivity. Qed.

Example stateq_accepts :
  stateq (trialSolve [3 / 2; 3 / 2]) twoLevel unitColl noRad 10 invertedGas
  = (setPops invertedGas [3 / 2; 3 / 2], false).
Proof.
  unfold stateq. cbn [nlev twoLevel nmol invertedGas].
  assert (Hs : trialSolve [3 / 2; 3 / 2]
                 (closeMatrix (Z.to_nat 2)
                    (rateMatrix (Z.to_nat 2) unitColl noRad))
                 (closeRhs (Z.to_nat 2) 3) = Some [3 / 2; 3 / 2]).
  { change (Z.to_nat 2) with 2%nat.
    unfold trialSolve, closeMatrix, closeRhs, rateMatrix, rateRow, Reqb,
      dot, sumR, unitColl, noRad.
    cbn [seq map filter firstn Nat.sub Nat.eqb negb repeat app combine
         length forallb fst snd andb fold_right].
    repeat (destruct (Req_dec_T _ _) as [_|Hn];
            [ | exfalso; apply Hn; lra ]).
    reflexivity. }
  rewrite Hs. unfold negativeEntry. cbn [existsb].
  unfold Rltb. repeat (destruct (Rlt_dec _ _) as [Hlt|_]; [ exfalso; lra | ]).
  reflexivity.
Qed.
